(** * go-ordered-map: an insertion-ordered map

    A shallow embedding of [orderedmap.go].  The Go program keeps two
    structures in lockstep: a hash index [pairs : map[K]*Pair] and a doubly
    linked list of [*Pair].  Both point at the same heap-allocated [Pair]
    objects, and [Set] on an existing key mutates the shared object.  The
    embedding therefore carries an explicit store of [Pair] objects and an
    explicit store of list elements; pointers are locations, [nil] is [None].

    A computation that would dereference a location that is not live yields
    [None] (the outer [option] of every operation).  The development shows
    that this never happens on a map built with [New], [Set] and [Delete]
    ([Set] is spelled [Set_] and the field [list] is spelled [list_], the
    plain names being taken in Rocq). *)

From stdpp Require Import gmap strings list fin_maps.

(** Pointers are locations of a store; [nil] is [None]. *)
Abbreviation loc := positive.

(** The zero value of a Go type ([var empty V]). *)
Class GoZero (V : Type) := zero_value : V.
Global Hint Mode GoZero ! : typeclass_instances.

Global Instance string_zero : GoZero string := EmptyString.
Global Instance Z_zero : GoZero Z := 0%Z.
Global Instance nat_zero : GoZero nat := 0.

(** ** The linked sequence *)

Module LinkedSequence.

(** Modelled from the spec: the package [go-ordered-map/list] imported by
    [orderedmap.go] is not part of the sources at hand.  The definitions of
    this module follow section 4.1 of the specification (Linked Sequence):
    nodes hold a payload and links to the previous and next node, absent at
    the ends; [PushBack] appends a new tail node and returns its handle;
    [Remove] unlinks a node, relinks its neighbours and decrements the
    length; [Front]/[Back] are absent on an empty sequence; [Next]/[Prev]
    are absent at the boundary.  Handles come from an arena with a
    monotone counter, so a handle is never handed out twice. *)
Section defs.
Context {T : Type}.

(** Modelled from the spec: the node type of the absent package [list]
    (section 3, Linked Sequence Node): a payload and links to the previous
    and next node, absent at the ends. *)
Record Element := mkElement {
  Value : T;
  next : option loc;
  prev : option loc
}.

(** Modelled from the spec: the list type of the absent package [list]:
    the live nodes, the head and tail handles, the O(1) length, and the
    arena counter handles are drawn from. *)
Record List := mkList {
  nodes : gmap loc Element;
  front : option loc;
  back : option loc;
  len : nat;
  top : loc
}.

(** Modelled from the spec: [list.New()] of the absent package, the empty
    sequence. *)
Definition New : List :=
  {| nodes := ∅; front := None; back := None; len := 0; top := 1%positive |}.

Definition set_next (n : option loc) (e : Element) : Element :=
  {| Value := Value e; next := n; prev := prev e |}.

Definition set_prev (p : option loc) (e : Element) : Element :=
  {| Value := Value e; next := next e; prev := p |}.

(** Redirect the [next] link of the node [h] (nothing to do for [nil]). *)
Definition link_next (h : option loc) (n : option loc)
    (ns : gmap loc Element) : gmap loc Element :=
  match h with
  | Some a => alter (set_next n) a ns
  | None => ns
  end.

Definition link_prev (h : option loc) (p : option loc)
    (ns : gmap loc Element) : gmap loc Element :=
  match h with
  | Some a => alter (set_prev p) a ns
  | None => ns
  end.

(** Modelled from the spec: [PushBack(payload) -> Handle] of the absent
    package [list], "appends payload as new tail node; returns a handle". *)
Definition PushBack (l : List) (v : T) : loc * List :=
  let h := top l in
  let e := {| Value := v; next := None; prev := back l |} in
  (h, {| nodes := <[h := e]> (link_next (back l) (Some h) (nodes l));
         front := match front l with Some f => Some f | None => Some h end;
         back := Some h;
         len := S (len l);
         top := Pos.succ h |}).

(** Modelled from the spec: [Remove(handle)] of the absent package [list],
    "unlinks the node referenced by handle from the sequence, relinking its
    neighbors; decrements length".  [None]: the handle does not denote a
    live node (the misuse that the specification leaves undefined). *)
Definition Remove (l : List) (h : loc) : option List :=
  e ← nodes l !! h;
  Some {| nodes := delete h (link_prev (next e) (prev e)
                               (link_next (prev e) (next e) (nodes l)));
          front := match prev e with Some _ => front l | None => next e end;
          back := match next e with Some _ => back l | None => prev e end;
          len := pred (len l);
          top := top l |}.

(** Modelled from the spec: [Front() -> Handle?] of the absent package
    [list], the head node or absent if empty. *)
Definition Front (l : List) : option loc := front l.

(** Modelled from the spec: [Back() -> Handle?] of the absent package
    [list], the tail node or absent if empty. *)
Definition Back (l : List) : option loc := back l.

(** Modelled from the spec: [Next(handle) -> Handle?] of the absent package
    [list], the neighbour or absent at the boundary ([None] outside: the
    handle is not live). *)
Definition Next (l : List) (h : loc) : option (option loc) :=
  e ← nodes l !! h; Some (next e).

(** Modelled from the spec: [Prev(handle) -> Handle?] of the absent package
    [list]. *)
Definition Prev (l : List) (h : loc) : option (option loc) :=
  e ← nodes l !! h; Some (prev e).

(** Modelled from the spec: [Len() -> int] of the absent package [list],
    the O(1) count of live nodes. *)
Definition Len (l : List) : nat := len l.

(** *** Representation

    [chain ns p ents n]: in the node store [ns], the handles of [ents]
    form a doubly linked run carrying the payloads of [ents], entered
    from [p] and left towards [n]. *)
Definition hd_or (n : option loc) (ents : list (loc * T)) : option loc :=
  match ents with
  | [] => n
  | (h, _) :: _ => Some h
  end.

Definition last_or (p : option loc) (ents : list (loc * T)) : option loc :=
  match last ents with
  | None => p
  | Some (h, _) => Some h
  end.

Fixpoint chain (ns : gmap loc Element) (p : option loc)
    (ents : list (loc * T)) (n : option loc) : Prop :=
  match ents with
  | [] => True
  | (h, v) :: rest =>
      ns !! h = Some {| Value := v; next := hd_or n rest; prev := p |}
      ∧ chain ns (Some h) rest n
  end.

(** [is_seq l ents]: the list [l] holds exactly [ents], oldest first. *)
Definition is_seq (l : List) (ents : list (loc * T)) : Prop :=
  chain (nodes l) None ents None
  ∧ NoDup ents.*1
  ∧ front l = hd_or None ents
  ∧ back l = last_or None ents
  ∧ len l = length ents
  ∧ (∀ h, h ∈ ents.*1 → (h < top l)%positive).
End defs.

Global Arguments Element : clear implicits.
Global Arguments List : clear implicits.

End LinkedSequence.

(** ** The ordered map *)

Module OrderedMap.

Section defs.
Context {K : Type} `{Countable K} {V : Type} `{GoZero V}.

(** [type Pair struct { Key K; Value V; element *list.Element }] *)
Record Pair := mkPair {
  Key : K;
  Value : V;
  element : option loc
}.

(** [type OrderedMap struct { pairs map[K]*Pair; list *list.List }],
    together with the store of the [Pair] objects it points to
    ([heap], allocated upwards from [htop]). *)
Record OrderedMap := mkOrderedMap {
  pairs : gmap K loc;
  list_ : LinkedSequence.List loc;
  heap : gmap loc Pair;
  htop : loc
}.

(** [func New() *OrderedMap]: an empty index and [list.New()]. *)
Definition New : OrderedMap :=
  {| pairs := ∅; list_ := LinkedSequence.New; heap := ∅; htop := 1%positive |}.

(** [func (om *OrderedMap) Get(key K) (V, bool)]:
    [if pair, present := om.pairs[key]; present { return pair.Value, present }]
    and otherwise the zero value with [false]. *)
Definition Get (om : OrderedMap) (key : K) : option (V * bool) :=
  match pairs om !! key with
  | Some p => pair ← heap om !! p; Some (Value pair, true)
  | None => Some (zero_value, false)
  end.

(** [func (om *OrderedMap) GetPair(key K) *Pair]: [om.pairs[key]], which
    is [nil] for a key that is not in the index. *)
Definition GetPair (om : OrderedMap) (key : K) : option loc :=
  pairs om !! key.

(** [func (om *OrderedMap) Set(key K, value V) (V, bool)].  Present key:
    [oldValue := pair.Value; pair.Value = value; return oldValue, true],
    a write through the pointer held by the index.  Absent key: allocate
    the [Pair], [pair.element = om.list.PushBack(pair)],
    [om.pairs[key] = pair], and return the zero value with [false]. *)
Definition Set_ (om : OrderedMap) (key : K) (value : V)
    : option (V * bool * OrderedMap) :=
  match pairs om !! key with
  | Some p =>
      pair ← heap om !! p;
      let oldValue := Value pair in
      let pair' := {| Key := Key pair; Value := value; element := element pair |} in
      Some (oldValue, true,
            {| pairs := pairs om; list_ := list_ om;
               heap := <[p := pair']> (heap om); htop := htop om |})
  | None =>
      let p := htop om in
      let pair := {| Key := key; Value := value; element := None |} in
      let heap1 := <[p := pair]> (heap om) in
      let '(e, l') := LinkedSequence.PushBack (list_ om) p in
      let heap2 := <[p := {| Key := key; Value := value; element := Some e |}]> heap1 in
      Some (zero_value, false,
            {| pairs := <[key := p]> (pairs om); list_ := l';
               heap := heap2; htop := Pos.succ p |})
  end.

(** [func (om *OrderedMap) Delete(key K) (V, bool)].  Present key:
    [om.list.Remove(pair.element); delete(om.pairs, key);
    return pair.Value, true].  Absent key: the zero value with [false]. *)
Definition Delete (om : OrderedMap) (key : K)
    : option (V * bool * OrderedMap) :=
  match pairs om !! key with
  | Some p =>
      pair ← heap om !! p;
      e ← element pair;
      l' ← LinkedSequence.Remove (list_ om) e;
      Some (Value pair, true,
            {| pairs := delete key (pairs om); list_ := l';
               heap := heap om; htop := htop om |})
  | None => Some (zero_value, false, om)
  end.

(** [func (om *OrderedMap) Len() int]: [len(om.pairs)]. *)
Definition Len (om : OrderedMap) : nat := size (pairs om).

(** [func listElementToPair(element *list.Element) *Pair]: [nil] for
    [nil], otherwise [element.Value]. *)
Definition listElementToPair (om : OrderedMap) (element : option loc)
    : option (option loc) :=
  match element with
  | None => Some None
  | Some e => el ← LinkedSequence.nodes (list_ om) !! e;
              Some (Some (LinkedSequence.Value el))
  end.

(** [func (om *OrderedMap) Oldest() *Pair]: the pair of [om.list.Front()]. *)
Definition Oldest (om : OrderedMap) : option (option loc) :=
  listElementToPair om (LinkedSequence.Front (list_ om)).

(** [func (om *OrderedMap) Newest() *Pair]: the pair of [om.list.Back()]. *)
Definition Newest (om : OrderedMap) : option (option loc) :=
  listElementToPair om (LinkedSequence.Back (list_ om)).

(** [func (p *Pair) Next() *Pair]: the pair of [p.element.Next()]. *)
Definition Next (om : OrderedMap) (p : loc) : option (option loc) :=
  pair ← heap om !! p;
  e ← element pair;
  n ← LinkedSequence.Next (list_ om) e;
  listElementToPair om n.

(** [func (p *Pair) Prev() *Pair]: the pair of [p.element.Prev()]. *)
Definition Prev (om : OrderedMap) (p : loc) : option (option loc) :=
  pair ← heap om !! p;
  e ← element pair;
  n ← LinkedSequence.Prev (list_ om) e;
  listElementToPair om n.

(** The iteration idiom of the package documentation,
    [for pair := start; pair != nil; pair = pair.Next() { ... }],
    collecting [(pair.Key, pair.Value)].  One unit of [fuel] is spent per
    visited pair; [None] when the fuel runs out or a pointer is not live. *)
Fixpoint iterate (step : OrderedMap → loc → option (option loc))
    (fuel : nat) (om : OrderedMap) (cur : option loc) : option (list (K * V)) :=
  match cur with
  | None => Some []
  | Some p =>
      match fuel with
      | O => None
      | S fuel' =>
          pair ← heap om !! p;
          nxt ← step om p;
          rest ← iterate step fuel' om nxt;
          Some ((Key pair, Value pair) :: rest)
      end
  end.

(** [for pair := om.Oldest(); pair != nil; pair = pair.Next()] *)
Definition forward (fuel : nat) (om : OrderedMap) : option (list (K * V)) :=
  start ← Oldest om; iterate Next fuel om start.

(** [for pair := om.Newest(); pair != nil; pair = pair.Prev()] *)
Definition backward (fuel : nat) (om : OrderedMap) : option (list (K * V)) :=
  start ← Newest om; iterate Prev fuel om start.

(** Resuming from a known key: [for pair := om.GetPair(k); pair != nil; ...]. *)
Definition forward_from (fuel : nat) (om : OrderedMap) (key : K)
    : option (list (K * V)) :=
  iterate Next fuel om (GetPair om key).

(** Programs over the mutating interface. *)
Inductive Op := OpSet (key : K) (value : V) | OpDelete (key : K).

Definition op_key (op : Op) : K :=
  match op with
  | OpSet k _ => k
  | OpDelete k => k
  end.

Definition exec (om : OrderedMap) (op : Op) : option OrderedMap :=
  match op with
  | OpSet k v => snd <$> Set_ om k v
  | OpDelete k => snd <$> Delete om k
  end.

Fixpoint run (ops : list Op) (om : OrderedMap) : option OrderedMap :=
  match ops with
  | [] => Some om
  | op :: ops' => om' ← exec om op; run ops' om'
  end.

(** A map state: whatever a client can build from [New()]. *)
Definition reachable (om : OrderedMap) : Prop :=
  ∃ ops, run ops New = Some om.

(** *** Observations on traversal results *)

(** The effect of overwriting the value of [key] on one visited pair. *)
Definition update (key : K) (value : V) (kv : K * V) : K * V :=
  if decide (kv.1 = key) then (key, value) else kv.

(** The traversal restricted to the keys other than [key]. *)
Definition without (key : K) (kvs : list (K * V)) : list (K * V) :=
  filter (λ kv, kv.1 ≠ key) kvs.

(** Skip the pairs before [key]: the rest of a traversal from [key] on. *)
Fixpoint skip_to (key : K) (kvs : list (K * V)) : list (K * V) :=
  match kvs with
  | [] => []
  | kv :: rest => if decide (kv.1 = key) then kvs else skip_to key rest
  end.

(** The position of [key] in a traversal, counted from the oldest. *)
Fixpoint index_of (key : K) (kvs : list (K * V)) : option nat :=
  match kvs with
  | [] => None
  | kv :: rest => if decide (kv.1 = key) then Some 0
                  else S <$> index_of key rest
  end.

(** The association a program leaves behind, read off the program text:
    the last value set for a key that was not deleted afterwards. *)
Definition assoc_step (a : gmap K V) (op : Op) : gmap K V :=
  match op with
  | OpSet k v => <[k := v]> a
  | OpDelete k => delete k a
  end.

Definition assoc (ops : list Op) : gmap K V := foldl assoc_step ∅ ops.

(** *** The representation invariant

    An [Entry] lists, for one live key, its list handle, the location of
    its [Pair] object, and the key and value stored there.  [wf om ents]
    ties the index, the linked sequence and the store of [om] to the
    entries [ents], oldest first. *)
Record Entry := mkEntry {
  e_handle : loc;
  e_ptr : loc;
  e_key : K;
  e_val : V
}.

Definition set_val (value : V) (x : Entry) : Entry :=
  {| e_handle := e_handle x; e_ptr := e_ptr x;
     e_key := e_key x; e_val := value |}.

Definition links (ents : list Entry) : list (loc * loc) :=
  (λ x, (e_handle x, e_ptr x)) <$> ents.

Definition index (ents : list Entry) : list (K * loc) :=
  (λ x, (e_key x, e_ptr x)) <$> ents.

Definition contents (ents : list Entry) : list (K * V) :=
  (λ x, (e_key x, e_val x)) <$> ents.

Definition wf (om : OrderedMap) (ents : list Entry) : Prop :=
  LinkedSequence.is_seq (list_ om) (links ents)
  ∧ NoDup (e_key <$> ents)
  ∧ pairs om = list_to_map (index ents)
  ∧ (∀ x, x ∈ ents →
       heap om !! e_ptr x =
         Some {| Key := e_key x; Value := e_val x;
                 element := Some (e_handle x) |})
  ∧ (∀ p, is_Some (heap om !! p) → (p < htop om)%positive).

(** *** Further clients

    Resuming backward from a known key, as the comment of [GetPair]
    announces ("iterate over the ordered map from that point, either
    forward or backward"):
    [for pair := om.GetPair(k); pair != nil; pair = pair.Prev()]. *)
Definition backward_from (fuel : nat) (om : OrderedMap) (key : K)
    : option (list (K * V)) :=
  iterate Prev fuel om (GetPair om key).

(** The pairs of a traversal up to and including [key]. *)
Fixpoint upto (key : K) (kvs : list (K * V)) : list (K * V) :=
  match kvs with
  | [] => []
  | kv :: rest => if decide (kv.1 = key) then [kv] else kv :: upto key rest
  end.

(** [for i := range keys { om.Set(keys[i], values[i]) }], the filling loop
    of the package tests. *)
Definition sets (kvs : list (K * V)) : list Op :=
  (λ kv, OpSet kv.1 kv.2) <$> kvs.

(** *** A call as a state transformer

    Every method has the pointer receiver [om *OrderedMap] and could write
    to the map.  [Call A] is a call seen from its caller: from the map
    before, either it gets stuck or it yields a result together with the
    map after.  [Set_] and [Delete] above already have this shape. *)
Definition Call (A : Type) : Type := OrderedMap → option (A * OrderedMap).

Definition ret {A : Type} (a : A) : Call A := λ om, Some (a, om).

Definition bind {A B : Type} (c : Call A) (k : A → Call B) : Call B :=
  λ om, match c om with
        | Some (a, om') => k a om'
        | None => None
        end.

(** [om.pairs[key]]: a read of the index. *)
Definition index_lookup (key : K) : Call (option loc) :=
  λ om, Some (pairs om !! key, om).

(** [pair.Value]: a read through a [*Pair]. *)
Definition load (p : loc) : Call Pair :=
  λ om, match heap om !! p with
        | Some pr => Some (pr, om)
        | None => None
        end.

(** [func (om *OrderedMap) Get(key K) (V, bool)], statement by statement:
    [pair, present := om.pairs[key]]; if present, [return pair.Value,
    present]; otherwise [var empty V; return empty, false].  The body
    reads the index and one [Pair] and assigns to nothing. *)
Definition Get_call (key : K) : Call (V * bool) :=
  bind (index_lookup key) (λ present,
    match present with
    | Some p => bind (load p) (λ pair, ret (Value pair, true))
    | None => ret (zero_value, false)
    end).
End defs.

(** The value parameters of the constructor, as declared:
    [func New[K comparable, V any]() *OrderedMap[K,V]].  Each parameter
    would be listed with its name and its type. *)
Definition New_params : list (string * string) := [].

Global Arguments Pair : clear implicits.
Global Arguments OrderedMap _ {_ _} _.
Global Arguments Op : clear implicits.
Global Arguments Entry : clear implicits.

End OrderedMap.

Import OrderedMap.


(** ** Concrete maps

    The maps of the package tests, used to run the statements below on
    actual data. *)

Module Scenario.
Import OrderedMap.
Local Open Scope string_scope.

(** [om.Set("foo","bar"); om.Set("bip","bop"); om.Set("yin","yang");
    om.Set("bar","baz")] *)
Definition ops4 : list (Op string string) :=
  [OpSet "foo" "bar"; OpSet "bip" "bop"; OpSet "yin" "yang"; OpSet "bar" "baz"].

Definition om4 : OrderedMap string string := default New (run ops4 New).

Definition kvs4 : list (string * string) :=
  [("foo", "bar"); ("bip", "bop"); ("yin", "yang"); ("bar", "baz")].

(** [for i := 0; i < n; i++ { om.Set(i, 2*i) }] *)
Definition fill (n : nat) : list (Op nat nat) :=
  (λ i, OpSet i (2 * i)) <$> seq 0 n.

Definition doubles (n : nat) : list (nat * nat) :=
  (λ i, (i, 2 * i)) <$> seq 0 n.

End Scenario.

(** * Properties of the linked sequence *)

Module LinkedSequenceFacts.
Import LinkedSequence.

Section facts.
Context {T : Type}.
Implicit Types (ns : gmap loc (Element T)) (ents a b : list (loc * T)).
Implicit Types (l : List T) (h : loc) (p n : option loc).

Lemma last_or_snoc p ents h v : last_or p (ents ++ [(h, v)]) = Some h.
Proof. unfold last_or. by rewrite last_snoc. Qed.

Lemma last_or_cons p h v ents :
  last_or p ((h, v) :: ents) = last_or (Some h) ents.
Proof.
  unfold last_or. destruct ents as [|x ents]; [done|].
  rewrite last_cons_cons.
  destruct (last (x :: ents)) as [[??]|] eqn:Hl; [done|].
  by apply last_None in Hl.
Qed.

Lemma last_or_app p a b : last_or p (a ++ b) = last_or (last_or p a) b.
Proof.
  revert p. induction a as [|[h v] a IH]; intros p; [done|].
  rewrite <- app_comm_cons, !last_or_cons. apply IH.
Qed.

Lemma hd_or_app n a b : hd_or n (a ++ b) = hd_or (hd_or n b) a.
Proof. by destruct a as [|[??] ?]. Qed.

Lemma chain_app ns p a b n :
  chain ns p (a ++ b) n
  ↔ chain ns p a (hd_or n b) ∧ chain ns (last_or p a) b n.
Proof.
  revert p. induction a as [|[h v] a IH]; intros p; simpl.
  - unfold last_or; simpl; tauto.
  - rewrite IH, hd_or_app, last_or_cons. tauto.
Qed.

Lemma chain_frame ns ns' p ents n :
  (∀ h, h ∈ ents.*1 → ns' !! h = ns !! h) →
  chain ns p ents n → chain ns' p ents n.
Proof.
  revert p. induction ents as [|[h v] ents IH]; intros p Hag; [done|].
  simpl. intros [Hh Hc]. split.
  - rewrite Hag; [done|]. apply list_elem_of_here.
  - apply IH; [|done]. intros h' Hin. apply Hag.
    by apply list_elem_of_further.
Qed.

Lemma chain_lookup ns p ents n h v :
  chain ns p ents n → (h, v) ∈ ents →
  ∃ e, ns !! h = Some e ∧ Value e = v.
Proof.
  revert p. induction ents as [|[h' v'] ents IH]; intros p Hc Hin.
  - by apply elem_of_nil in Hin.
  - destruct Hc as [Hh Hc]. apply elem_of_cons in Hin as [Heq|Hin].
    + simplify_eq. eauto.
    + eapply IH; eauto.
Qed.

(** The node of an entry in the middle of a chain. *)
Lemma chain_mid ns p a h v b n :
  chain ns p (a ++ (h, v) :: b) n →
  ns !! h = Some {| Value := v; next := hd_or n b; prev := last_or p a |}.
Proof. rewrite chain_app. simpl. tauto. Qed.

Lemma lookup_link_next_ne o n ns h :
  o ≠ Some h → link_next o n ns !! h = ns !! h.
Proof.
  destruct o as [a|]; simpl; [|done].
  intros Hne. apply lookup_alter_ne. congruence.
Qed.

Lemma lookup_link_prev_ne o p ns h :
  o ≠ Some h → link_prev o p ns !! h = ns !! h.
Proof.
  destruct o as [a|]; simpl; [|done].
  intros Hne. apply lookup_alter_ne. congruence.
Qed.

Lemma last_or_elem p ents h :
  last_or p ents = Some h → p = Some h ∨ h ∈ ents.*1.
Proof.
  unfold last_or. destruct (last ents) as [[h' v']|] eqn:Hl; [|by left].
  intros [= ->]. right. apply last_Some in Hl as [l' ->].
  rewrite fmap_app. apply elem_of_app. right. apply list_elem_of_here.
Qed.

Lemma hd_or_elem n ents h :
  hd_or n ents = Some h → n = Some h ∨ h ∈ ents.*1.
Proof.
  destruct ents as [|[h' v'] ents]; simpl; [by left|].
  intros [= ->]. right. apply list_elem_of_here.
Qed.

(** Redirecting the forward link of the last node of a chain. *)
Lemma chain_link_next ns p ents n n' :
  NoDup ents.*1 → chain ns p ents n →
  chain (link_next (last_or None ents) n' ns) p ents n'.
Proof.
  revert p. induction ents as [|[h v] ents IH]; intros p Hnd Hc; [done|].
  simpl in Hnd. apply NoDup_cons in Hnd as [Hnotin Hnd].
  destruct Hc as [Hh Hc]. rewrite last_or_cons.
  destruct ents as [|[h' v'] ents'].
  - simpl. split; [|done]. unfold last_or; simpl.
    rewrite lookup_alter_eq, Hh. done.
  - assert (last_or (Some h) ((h', v') :: ents') =
            last_or None ((h', v') :: ents')) as Hlast.
    { by rewrite !last_or_cons. }
    rewrite Hlast. split.
    + rewrite lookup_link_next_ne; [done|].
      intros Heq. apply last_or_elem in Heq as [?|?]; done.
    + by apply IH.
Qed.

(** Redirecting the backward link of the first node of a chain. *)
Lemma chain_link_prev ns p ents n p' :
  NoDup ents.*1 → chain ns p ents n →
  chain (link_prev (hd_or None ents) p' ns) p' ents n.
Proof.
  destruct ents as [|[h v] ents]; intros Hnd Hc; [done|].
  simpl in Hnd. apply NoDup_cons in Hnd as [Hnotin Hnd].
  destruct Hc as [Hh Hc]. simpl. split.
  - by rewrite lookup_alter_eq, Hh.
  - eapply chain_frame; [|done]. intros h' Hin.
    apply lookup_alter_ne. intros ->. done.
Qed.

Lemma is_seq_New : is_seq (New (T:=T)) [].
Proof.
  repeat split; try done; [constructor|].
  intros h Hin. by apply elem_of_nil in Hin.
Qed.

Lemma is_seq_live l ents h :
  is_seq l ents → h ∈ ents.*1 → is_Some (nodes l !! h).
Proof.
  intros (Hc & _) Hin. apply list_elem_of_fmap in Hin as ([h' v] & -> & Hin).
  destruct (chain_lookup _ _ _ _ _ _ Hc Hin) as (e & He & _). eauto.
Qed.

(** Handles at or above [top] are not in use. *)
Lemma is_seq_top_fresh l ents : is_seq l ents → top l ∉ ents.*1.
Proof.
  intros (_ & _ & _ & _ & _ & Htop) Hin. specialize (Htop _ Hin). lia.
Qed.

(** [PushBack] appends at the tail and hands out the handle [top l]. *)
Lemma PushBack_spec l ents v :
  is_seq l ents →
  (PushBack l v).1 = top l
  ∧ is_seq (PushBack l v).2 (ents ++ [(top l, v)]).
Proof.
  intros Hseq. split; [done|].
  pose proof (is_seq_top_fresh _ _ Hseq) as Hfresh.
  destruct Hseq as (Hc & Hnd & Hf & Hb & Hlen & Htop).
  unfold is_seq, PushBack; simpl. split_and!.
  - apply chain_app. split.
    + simpl.
      apply (chain_frame (link_next (back l) (Some (top l)) (nodes l)));
        [|rewrite Hb; by eapply chain_link_next].
      intros h Hin. apply lookup_insert_ne. by intros <-.
    + simpl. split; [|done]. rewrite lookup_insert_eq. by rewrite Hb.
  - rewrite fmap_app. apply NoDup_app. split_and!; [done| |].
    + intros h Hin Hin'. simpl in Hin'.
      apply list_elem_of_singleton in Hin' as ->. done.
    + simpl. apply NoDup_singleton.
  - rewrite Hf, hd_or_app. by destruct ents as [|[??] ?].
  - by rewrite last_or_snoc.
  - rewrite length_app, Hlen. simpl. lia.
  - intros h. rewrite fmap_app, elem_of_app. simpl.
    intros [Hin|Hin].
    + specialize (Htop _ Hin). lia.
    + apply list_elem_of_singleton in Hin as ->. lia.
Qed.

(** [Remove] on a live handle succeeds and drops exactly that entry. *)
Lemma Remove_spec l a h v b :
  is_seq l (a ++ (h, v) :: b) →
  ∃ l', Remove l h = Some l' ∧ is_seq l' (a ++ b).
Proof.
  intros (Hc & Hnd & Hf & Hb & Hlen & Htop).
  pose proof (chain_mid _ _ _ _ _ _ _ Hc) as Hh.
  unfold Remove. rewrite Hh. simpl. eexists; split; [done|].
  rewrite fmap_app, fmap_cons in Hnd. simpl in Hnd.
  apply NoDup_app in Hnd as (Hnda & Hdisj & Hndb).
  apply NoDup_cons in Hndb as [Hhb Hndb].
  assert (h ∉ a.*1) as Hha.
  { intros Hin. apply (Hdisj _ Hin). apply list_elem_of_here. }
  apply chain_app in Hc as [Hca Hcb]. destruct Hcb as [_ Hcb].
  unfold is_seq; simpl. split_and!.
  - apply chain_app. split.
    + apply (chain_frame
               (link_next (last_or None a) (hd_or None b) (nodes l)));
        [|by eapply chain_link_next].
      intros h' Hin. rewrite lookup_delete_ne by (by intros <-).
      apply lookup_link_prev_ne. intros Heq.
      apply hd_or_elem in Heq as [?|Hin']; [done|].
      apply (Hdisj _ Hin). by apply list_elem_of_further.
    + apply (chain_frame
               (link_prev (hd_or None b) (last_or None a) (nodes l)));
        [|by eapply chain_link_prev].
      intros h' Hin. rewrite lookup_delete_ne by (by intros <-).
      destruct (decide (hd_or None b = Some h')) as [Heq|Hne].
      * rewrite Heq. simpl. rewrite !lookup_alter_eq.
        rewrite lookup_link_next_ne; [done|].
        intros Heq'. apply last_or_elem in Heq' as [?|Hin']; [done|].
        apply (Hdisj _ Hin'). by apply list_elem_of_further.
      * rewrite !lookup_link_prev_ne by done.
        apply lookup_link_next_ne.
        intros Heq'. apply last_or_elem in Heq' as [?|Hin']; [done|].
        apply (Hdisj _ Hin'). by apply list_elem_of_further.
  - rewrite fmap_app. apply NoDup_app. split_and!; [done| |done].
    intros h' Hin Hin'. apply (Hdisj _ Hin). by apply list_elem_of_further.
  - rewrite Hf, !hd_or_app. simpl.
    destruct a as [|[h0 v0] a']; simpl; [done|].
    rewrite last_or_cons.
    destruct (last_or (Some h0) a') eqn:Hl; [done|].
    unfold last_or in Hl. by destruct (last a') as [[??]|].
  - rewrite Hb, !last_or_app, last_or_cons.
    destruct b as [|[h0 v0] b']; simpl.
    + unfold last_or at 1 3; simpl. done.
    + rewrite !last_or_cons. unfold last_or.
      by destruct (last b') as [[??]|].
  - rewrite Hlen, !length_app. simpl. lia.
  - intros h' Hin. apply Htop. rewrite fmap_app, fmap_cons.
    rewrite fmap_app in Hin. apply elem_of_app in Hin as [?|?].
    + apply elem_of_app; by left.
    + apply elem_of_app; right. by apply list_elem_of_further.
Qed.
End facts.
End LinkedSequenceFacts.

(** * The invariant of the ordered map *)

Module OrderedMapFacts.
Import LinkedSequenceFacts OrderedMap.

Section facts.
Context {K : Type} `{Countable K} {V : Type} `{GoZero V}.
Implicit Types (om : OrderedMap K V) (ents a b : list (Entry K V)).
Implicit Types (x : Entry K V) (key : K) (value : V).

Lemma links_app a b : links (a ++ b) = links a ++ links b.
Proof. apply fmap_app. Qed.

Lemma index_app a b : index (a ++ b) = index a ++ index b.
Proof. apply fmap_app. Qed.

Lemma contents_app a b : contents (a ++ b) = contents a ++ contents b.
Proof. apply fmap_app. Qed.

Lemma index_keys ents : (index ents).*1 = e_key <$> ents.
Proof. unfold index. rewrite <- list_fmap_compose. done. Qed.

Lemma contents_keys ents : (contents ents).*1 = e_key <$> ents.
Proof. unfold contents. rewrite <- list_fmap_compose. done. Qed.

Lemma length_contents ents : length (contents ents) = length ents.
Proof. apply length_fmap. Qed.

Lemma wf_New : wf (K:=K) (V:=V) New [].
Proof.
  unfold wf; simpl. split_and!; try done.
  - apply is_seq_New.
  - constructor.
  - intros x Hx. by apply elem_of_nil in Hx.
  - intros p [? Hp]. by rewrite lookup_empty in Hp.
Qed.

Lemma wf_Len om ents : wf om ents → Len om = length ents.
Proof.
  unfold Len. intros (_ & Hnd & -> & _).
  rewrite map_size_list_to_map; [apply length_fmap|].
  by rewrite index_keys.
Qed.

Lemma wf_list_Len om ents :
  wf om ents → LinkedSequence.Len (list_ om) = length ents.
Proof.
  intros ((_ & _ & _ & _ & Hlen & _) & _). unfold LinkedSequence.Len.
  rewrite Hlen. apply length_fmap.
Qed.

Lemma wf_index om ents x :
  wf om ents → x ∈ ents → pairs om !! e_key x = Some (e_ptr x).
Proof.
  intros (_ & Hnd & -> & _) Hx.
  apply elem_of_list_to_map; [by rewrite index_keys|].
  unfold index. apply list_elem_of_fmap. eauto.
Qed.

Lemma wf_absent om ents key :
  wf om ents → pairs om !! key = None ↔ key ∉ (e_key <$> ents).
Proof.
  intros (_ & _ & -> & _).
  rewrite <- not_elem_of_list_to_map, index_keys. done.
Qed.

(** A key of the index has exactly one entry. *)
Lemma wf_find om ents key p :
  wf om ents → pairs om !! key = Some p →
  ∃ a x b, ents = a ++ x :: b ∧ e_key x = key ∧ e_ptr x = p
           ∧ (key ∉ (e_key <$> a)) ∧ (key ∉ (e_key <$> b)).
Proof.
  intros (_ & Hnd & -> & _) Hp.
  apply elem_of_list_to_map_2 in Hp.
  apply list_elem_of_fmap in Hp as (x & [= -> ->] & Hx).
  apply list_elem_of_split in Hx as (a & b & ->).
  exists a, x, b. split_and!; try done.
  - rewrite fmap_app, fmap_cons in Hnd.
    apply NoDup_app in Hnd as (_ & Hdisj & _).
    intros Hin. apply (Hdisj _ Hin). apply list_elem_of_here.
  - rewrite fmap_app, fmap_cons in Hnd.
    apply NoDup_app in Hnd as (_ & _ & Hnd).
    by apply NoDup_cons in Hnd as [? _].
Qed.

Lemma wf_keys_split om a x b :
  wf om (a ++ x :: b) →
  (e_key x ∉ (e_key <$> a)) ∧ (e_key x ∉ (e_key <$> b)).
Proof.
  intros (_ & Hnd & _). rewrite fmap_app, fmap_cons in Hnd.
  apply NoDup_app in Hnd as (_ & Hdisj & Hnd).
  apply NoDup_cons in Hnd as [? _]. split; [|done].
  intros Hin. apply (Hdisj _ Hin). apply list_elem_of_here.
Qed.

Lemma wf_heap_mid om a x b :
  wf om (a ++ x :: b) →
  heap om !! e_ptr x =
    Some {| Key := e_key x; Value := e_val x; element := Some (e_handle x) |}.
Proof.
  intros (_ & _ & _ & Hheap & _). apply Hheap.
  apply elem_of_app. right. apply list_elem_of_here.
Qed.

(** Two entries of a well-formed map that share their [Pair] object
    share their key. *)
Lemma wf_ptr_key om ents x y :
  wf om ents → x ∈ ents → y ∈ ents → e_ptr x = e_ptr y → e_key x = e_key y.
Proof.
  intros (_ & _ & _ & Hheap & _) Hx Hy Heq.
  pose proof (Hheap _ Hx) as H1. pose proof (Hheap _ Hy) as H2.
  rewrite Heq, H2 in H1. by injection H1.
Qed.

(** [Set] on a key that is present: the [Pair] object is overwritten,
    the index and the sequence are left alone. *)
Lemma Set_present_wf om a x b value :
  wf om (a ++ x :: b) →
  ∃ om', Set_ om (e_key x) value = Some (e_val x, true, om')
         ∧ pairs om' = pairs om
         ∧ list_ om' = list_ om
         ∧ wf om' (a ++ set_val value x :: b).
Proof.
  intros Hwf.
  assert (x ∈ a ++ x :: b) as Hx.
  { apply elem_of_app. right. apply list_elem_of_here. }
  pose proof (wf_index _ _ _ Hwf Hx) as Hidx.
  pose proof (wf_heap_mid _ _ _ _ Hwf) as Hpair.
  pose proof (wf_keys_split _ _ _ _ Hwf) as [Hka Hkb].
  unfold Set_. rewrite Hidx, Hpair. simpl.
  eexists; split_and!; try done.
  assert (∀ y, y ∈ a ++ x :: b → e_ptr x = e_ptr y → e_key x = e_key y)
    as Hsame by (intros y Hy; by apply (wf_ptr_key om (a ++ x :: b))).
  destruct Hwf as (Hseq & Hnd & Hpairs & Hheap & Htop).
  unfold wf; simpl. split_and!.
  - by rewrite links_app in *.
  - by rewrite fmap_app in *.
  - by rewrite index_app in *.
  - intros y Hy. apply elem_of_app in Hy as [Hy|Hy];
      [|apply elem_of_cons in Hy as [->|Hy]].
    + assert (y ∈ a ++ x :: b) as Hy' by (apply elem_of_app; by left).
      rewrite lookup_insert_ne; [by apply Hheap|].
      intros Heq. apply Hka. rewrite (Hsame y Hy' Heq).
      apply list_elem_of_fmap. eauto.
    + simpl. by rewrite lookup_insert_eq.
    + assert (y ∈ a ++ x :: b) as Hy'.
      { apply elem_of_app; right. by apply list_elem_of_further. }
      rewrite lookup_insert_ne; [by apply Hheap|].
      intros Heq. apply Hkb. rewrite (Hsame y Hy' Heq).
      apply list_elem_of_fmap. eauto.
  - intros p. rewrite lookup_insert. case_decide as Hp; [|by apply Htop].
    subst p. intros _. apply Htop. eauto.
Qed.

(** [Set] on a key that is absent: a new [Pair] object, linked at the
    tail and entered into the index. *)
Lemma Set_absent_wf om ents key value :
  wf om ents → pairs om !! key = None →
  ∃ om' x,
    Set_ om key value = Some (zero_value, false, om')
    ∧ e_key x = key ∧ e_val x = value
    ∧ wf om' (ents ++ [x]).
Proof.
  intros Hwf Hnone.
  pose proof (proj1 (wf_absent _ _ _ Hwf) Hnone) as Hkey.
  destruct Hwf as (Hseq & Hnd & Hpairs & Hheap & Htop).
  destruct (PushBack_spec _ _ (htop om) Hseq) as [Hh Hseq'].
  unfold Set_. rewrite Hnone.
  destruct (LinkedSequence.PushBack (list_ om) (htop om)) as [e l'] eqn:Hpb.
  simpl in Hh, Hseq'. subst e.
  eexists.
  exists {| e_handle := LinkedSequence.top (list_ om); e_ptr := htop om;
            e_key := key; e_val := value |}.
  split_and!; try done.
  unfold wf; simpl. split_and!.
  - by rewrite links_app.
  - rewrite fmap_app. apply NoDup_app. split_and!; [done| |].
    + intros k Hin Hin'. apply list_elem_of_singleton in Hin' as ->. done.
    + apply NoDup_singleton.
  - rewrite index_app. simpl. rewrite list_to_map_snoc, Hpairs; [done|].
    by rewrite index_keys.
  - intros y Hy. apply elem_of_app in Hy as [Hy|Hy].
    + assert (e_ptr y ≠ htop om) as Hne.
      { intros Heq. assert (e_ptr y < htop om)%positive as Hlt; [|lia].
        apply Htop. rewrite (Hheap _ Hy). eauto. }
      rewrite !lookup_insert_ne by done. by apply Hheap.
    + apply list_elem_of_singleton in Hy as ->. simpl.
      by rewrite lookup_insert_eq.
  - intros p. rewrite !lookup_insert. case_decide as Hp; [subst; lia|].
    intros Hp'%Htop. lia.
Qed.

(** [Delete] on a key that is present: its node leaves the sequence and
    its key leaves the index. *)
Lemma Delete_present_wf om a x b :
  wf om (a ++ x :: b) →
  ∃ om', Delete om (e_key x) = Some (e_val x, true, om')
         ∧ wf om' (a ++ b).
Proof.
  intros Hwf.
  assert (x ∈ a ++ x :: b) as Hx.
  { apply elem_of_app. right. apply list_elem_of_here. }
  pose proof (wf_index _ _ _ Hwf Hx) as Hidx.
  pose proof (wf_heap_mid _ _ _ _ Hwf) as Hpair.
  pose proof (wf_keys_split _ _ _ _ Hwf) as [Hka Hkb].
  destruct Hwf as (Hseq & Hnd & Hpairs & Hheap & Htop).
  rewrite links_app in Hseq. simpl in Hseq.
  destruct (Remove_spec _ _ _ _ _ Hseq) as (l' & Hrm & Hseq').
  unfold Delete. rewrite Hidx, Hpair. simpl. rewrite Hrm. simpl.
  eexists; split; [done|].
  unfold wf; simpl. split_and!.
  - by rewrite links_app.
  - rewrite fmap_app, fmap_cons in Hnd. rewrite fmap_app.
    apply NoDup_app in Hnd as (? & Hdisj & [_ ?]%NoDup_cons).
    apply NoDup_app. split_and!; try done.
    intros k Hin Hin'. apply (Hdisj _ Hin). by apply list_elem_of_further.
  - rewrite Hpairs, !index_app. simpl.
    rewrite !list_to_map_app, list_to_map_cons.
    rewrite delete_union, delete_insert_eq.
    rewrite !delete_id; [done| |].
    + apply not_elem_of_list_to_map. by rewrite index_keys.
    + apply not_elem_of_list_to_map. by rewrite index_keys.
  - intros y Hy. apply Hheap.
    apply elem_of_app in Hy as [?|?]; apply elem_of_app; [by left|right].
    by apply list_elem_of_further.
  - done.
Qed.

Lemma Delete_absent om key :
  pairs om !! key = None → Delete om key = Some (zero_value, false, om).
Proof. intros Hnone. unfold Delete. by rewrite Hnone. Qed.

(** *** Handles and traversal *)

Lemma hd_or_links b :
  LinkedSequence.hd_or None (links b) = e_handle <$> head b.
Proof. by destruct b. Qed.

Lemma last_or_links a :
  LinkedSequence.last_or None (links a) = e_handle <$> last a.
Proof.
  unfold LinkedSequence.last_or, links. rewrite fmap_last.
  by destruct (last a).
Qed.

Lemma wf_node_mid om a x b :
  wf om (a ++ x :: b) →
  LinkedSequence.nodes (list_ om) !! e_handle x =
    Some {| LinkedSequence.Value := e_ptr x;
            LinkedSequence.next := e_handle <$> head b;
            LinkedSequence.prev := e_handle <$> last a |}.
Proof.
  intros ((Hc & _) & _). rewrite links_app in Hc. simpl in Hc.
  apply chain_mid in Hc. by rewrite hd_or_links, last_or_links in Hc.
Qed.

Lemma listElementToPair_head om a b :
  wf om (a ++ b) →
  listElementToPair om (e_handle <$> head b) = Some (e_ptr <$> head b).
Proof.
  destruct b as [|y b]; [done|]. intros Hwf. simpl.
  by rewrite (wf_node_mid _ _ _ _ Hwf).
Qed.

Lemma listElementToPair_last om a b :
  wf om (a ++ b) →
  listElementToPair om (e_handle <$> last a) = Some (e_ptr <$> last a).
Proof.
  destruct (last a) as [y|] eqn:Hl; [|done].
  apply last_Some in Hl as [a' ->]. rewrite <- app_assoc. simpl.
  intros Hwf. by rewrite (wf_node_mid _ _ _ _ Hwf).
Qed.

Lemma Oldest_wf om ents : wf om ents → Oldest om = Some (e_ptr <$> head ents).
Proof.
  intros Hwf. unfold Oldest, LinkedSequence.Front.
  destruct Hwf as [Hseq Hrest]. pose proof Hseq as (_ & _ & -> & _).
  rewrite hd_or_links. apply (listElementToPair_head om []).
  by split.
Qed.

Lemma Newest_wf om ents : wf om ents → Newest om = Some (e_ptr <$> last ents).
Proof.
  intros Hwf. unfold Newest, LinkedSequence.Back.
  destruct Hwf as [Hseq Hrest]. pose proof Hseq as (_ & _ & _ & -> & _).
  rewrite last_or_links. apply (listElementToPair_last om ents []).
  rewrite app_nil_r. by split.
Qed.

Lemma Next_wf om a x b :
  wf om (a ++ x :: b) → Next om (e_ptr x) = Some (e_ptr <$> head b).
Proof.
  intros Hwf. unfold Next, LinkedSequence.Next.
  rewrite (wf_heap_mid _ _ _ _ Hwf). simpl.
  rewrite (wf_node_mid _ _ _ _ Hwf). simpl.
  apply (listElementToPair_head om (a ++ [x])).
  by rewrite <- app_assoc.
Qed.

Lemma Prev_wf om a x b :
  wf om (a ++ x :: b) → Prev om (e_ptr x) = Some (e_ptr <$> last a).
Proof.
  intros Hwf. unfold Prev, LinkedSequence.Prev.
  rewrite (wf_heap_mid _ _ _ _ Hwf). simpl.
  rewrite (wf_node_mid _ _ _ _ Hwf). simpl.
  by apply (listElementToPair_last om a (x :: b)).
Qed.

(** Walking forward from the head of a suffix visits that suffix. *)
Lemma iterate_Next_wf om a b fuel :
  wf om (a ++ b) → length b ≤ fuel →
  iterate Next fuel om (e_ptr <$> head b) = Some (contents b).
Proof.
  revert a fuel. induction b as [|x b IH]; intros a fuel Hwf Hfuel.
  - by destruct fuel.
  - destruct fuel as [|fuel]; simpl in Hfuel; [lia|]. simpl.
    rewrite (wf_heap_mid _ _ _ _ Hwf). simpl.
    rewrite (Next_wf _ _ _ _ Hwf). simpl.
    rewrite (IH (a ++ [x])); [done| |lia].
    by rewrite <- app_assoc.
Qed.

(** Walking backward from the last of a prefix visits that prefix,
    newest first. *)
Lemma iterate_Prev_wf om a b fuel :
  wf om (a ++ b) → length a ≤ fuel →
  iterate Prev fuel om (e_ptr <$> last a) = Some (reverse (contents a)).
Proof.
  revert b fuel. induction a as [|x a IH] using rev_ind;
    intros b fuel Hwf Hfuel.
  - by destruct fuel.
  - rewrite length_app in Hfuel. simpl in Hfuel.
    destruct fuel as [|fuel]; [lia|].
    rewrite <- app_assoc in Hwf. simpl in Hwf.
    rewrite last_snoc. simpl.
    rewrite (wf_heap_mid _ _ _ _ Hwf). simpl.
    rewrite (Prev_wf _ _ _ _ Hwf). simpl.
    rewrite (IH (x :: b)); [|done|lia].
    by rewrite contents_app, reverse_app.
Qed.

Lemma forward_wf om ents fuel :
  wf om ents → length ents ≤ fuel → forward fuel om = Some (contents ents).
Proof.
  intros Hwf Hfuel. unfold forward. rewrite (Oldest_wf _ _ Hwf). simpl.
  by apply (iterate_Next_wf om []).
Qed.

Lemma backward_wf om ents fuel :
  wf om ents → length ents ≤ fuel →
  backward fuel om = Some (reverse (contents ents)).
Proof.
  intros Hwf Hfuel. unfold backward. rewrite (Newest_wf _ _ Hwf). simpl.
  apply (iterate_Prev_wf om ents []); [|done]. by rewrite app_nil_r.
Qed.

(** More fuel never changes a finished traversal. *)
Lemma iterate_mono step om fuel fuel' cur kvs :
  iterate step fuel om cur = Some kvs → fuel ≤ fuel' →
  iterate step fuel' om cur = Some kvs.
Proof.
  revert fuel' cur kvs. induction fuel as [|fuel IH];
    intros fuel' cur kvs Hit Hle.
  - destruct cur; [done|]. by destruct fuel'.
  - destruct cur as [p|]; [|by destruct fuel'].
    destruct fuel' as [|fuel']; [lia|]. simpl in *.
    destruct (heap om !! p) as [pair|]; [|done]. simpl in *.
    destruct (step om p) as [nxt|]; [|done]. simpl in *.
    destruct (iterate step fuel om nxt) as [rest|] eqn:Hrest; [|done].
    rewrite (IH fuel' nxt rest); [done|done|lia].
Qed.

(** A traversal that finishes visits one pair per unit of fuel spent. *)
Lemma iterate_length step om fuel cur kvs :
  iterate step fuel om cur = Some kvs → length kvs ≤ fuel.
Proof.
  revert cur kvs. induction fuel as [|fuel IH]; intros cur kvs Hit.
  - destruct cur; [done|]. simpl in Hit. injection Hit as <-. done.
  - destruct cur as [p|]; simpl in Hit; [|injection Hit as <-; simpl; lia].
    destruct (heap om !! p) as [pair|]; [|done]. simpl in *.
    destruct (step om p) as [nxt|]; [|done]. simpl in *.
    destruct (iterate step fuel om nxt) as [rest|] eqn:Hrest; [|done].
    simpl in Hit. injection Hit as <-. simpl.
    specialize (IH _ _ Hrest). lia.
Qed.

(** Whatever fuel a finished forward traversal was run with, it lists
    the entries of the invariant. *)
Lemma forward_inv om ents fuel kvs :
  wf om ents → forward fuel om = Some kvs → kvs = contents ents.
Proof.
  intros Hwf Hf.
  pose proof (forward_wf om ents (fuel `max` length ents) Hwf) as Hf'.
  unfold forward in *. rewrite (Oldest_wf _ _ Hwf) in *. simpl in *.
  apply (iterate_mono _ _ _ (fuel `max` length ents)) in Hf; [|lia].
  rewrite Hf' in Hf by lia. by injection Hf.
Qed.

Lemma backward_inv om ents fuel kvs :
  wf om ents → backward fuel om = Some kvs → kvs = reverse (contents ents).
Proof.
  intros Hwf Hf.
  pose proof (backward_wf om ents (fuel `max` length ents) Hwf) as Hf'.
  unfold backward in *. rewrite (Newest_wf _ _ Hwf) in *. simpl in *.
  apply (iterate_mono _ _ _ (fuel `max` length ents)) in Hf; [|lia].
  rewrite Hf' in Hf by lia. by injection Hf.
Qed.

(** *** What [Get] reports *)

Lemma Get_true_inv om key v :
  Get om key = Some (v, true) → is_Some (pairs om !! key).
Proof. unfold Get. destruct (pairs om !! key); [eauto|done]. Qed.

Lemma Get_false_inv om key v :
  Get om key = Some (v, false) → pairs om !! key = None ∧ v = zero_value.
Proof.
  unfold Get. destruct (pairs om !! key) as [p|]; [|by intros [= <-]].
  by destruct (heap om !! p).
Qed.

Lemma Get_present_wf om a x b :
  wf om (a ++ x :: b) → Get om (e_key x) = Some (e_val x, true).
Proof.
  intros Hwf. unfold Get.
  rewrite (wf_index om (a ++ x :: b) x Hwf).
  - by rewrite (wf_heap_mid _ _ _ _ Hwf).
  - apply elem_of_app. right. apply list_elem_of_here.
Qed.

Lemma Get_absent om key :
  pairs om !! key = None → Get om key = Some (zero_value, false).
Proof. intros Hnone. unfold Get. by rewrite Hnone. Qed.

Lemma Get_wf om ents key :
  wf om ents →
  Get om key = match (list_to_map (contents ents) : gmap K V) !! key with
               | Some v => Some (v, true)
               | None => Some (zero_value, false)
               end.
Proof.
  intros Hwf. destruct (pairs om !! key) as [p|] eqn:Hp.
  - destruct (wf_find _ _ _ _ Hwf Hp) as (a & x & b & -> & <- & _ & _ & _).
    rewrite (Get_present_wf _ _ _ _ Hwf).
    assert ((list_to_map (contents (a ++ x :: b)) : gmap K V) !! e_key x
            = Some (e_val x)) as ->; [|done].
    apply elem_of_list_to_map.
    + rewrite contents_keys. by destruct Hwf as (_ & ? & _).
    + unfold contents. apply list_elem_of_fmap. exists x. split; [done|].
      apply elem_of_app. right. apply list_elem_of_here.
  - rewrite (Get_absent _ _ Hp).
    apply (wf_absent _ _ _ Hwf) in Hp.
    assert ((list_to_map (contents ents) : gmap K V) !! key = None) as ->;
      [|done].
    apply not_elem_of_list_to_map. by rewrite contents_keys.
Qed.

(** *** Programs preserve the invariant and never get stuck *)

Lemma exec_wf om ents op :
  wf om ents →
  ∃ om' ents',
    exec om op = Some om' ∧ wf om' ents'
    ∧ (list_to_map (contents ents') : gmap K V)
      = assoc_step (list_to_map (contents ents)) op.
Proof.
  intros Hwf. destruct op as [key value|key]; simpl;
    destruct (pairs om !! key) as [p|] eqn:Hp.
  - destruct (wf_find _ _ _ _ Hwf Hp) as (a & x & b & -> & <- & _ & Ha & Hb).
    destruct (Set_present_wf _ _ _ _ value Hwf) as (om' & -> & _ & _ & Hwf').
    exists om', (a ++ set_val value x :: b). split_and!; [done|done|].
    rewrite !contents_app. simpl.
    rewrite !list_to_map_app, !list_to_map_cons.
    rewrite insert_union_r, insert_insert_eq; [done|].
    apply not_elem_of_list_to_map. by rewrite contents_keys.
  - destruct (Set_absent_wf _ _ _ value Hwf Hp)
      as (om' & x & -> & <- & <- & Hwf').
    exists om', (ents ++ [x]). split_and!; [done|done|].
    rewrite contents_app. simpl. apply list_to_map_snoc.
    rewrite contents_keys. by apply (wf_absent _ _ _ Hwf).
  - destruct (wf_find _ _ _ _ Hwf Hp) as (a & x & b & -> & <- & _ & Ha & Hb).
    destruct (Delete_present_wf _ _ _ _ Hwf) as (om' & -> & Hwf').
    exists om', (a ++ b). split_and!; [done|done|].
    rewrite !contents_app. simpl.
    rewrite !list_to_map_app, !list_to_map_cons.
    rewrite delete_union, delete_insert_eq.
    rewrite !delete_id; [done| |];
      apply not_elem_of_list_to_map; by rewrite contents_keys.
  - rewrite (Delete_absent _ _ Hp). exists om, ents.
    split_and!; [done|done|]. simpl. rewrite delete_id; [done|].
    apply not_elem_of_list_to_map. rewrite contents_keys.
    by apply (wf_absent _ _ _ Hwf).
Qed.

Lemma run_wf ops om ents :
  wf om ents →
  ∃ om' ents',
    run ops om = Some om' ∧ wf om' ents'
    ∧ (list_to_map (contents ents') : gmap K V)
      = foldl assoc_step (list_to_map (contents ents)) ops.
Proof.
  revert om ents. induction ops as [|op ops IH]; intros om ents Hwf.
  - exists om, ents. by split_and!.
  - destruct (exec_wf _ _ op Hwf) as (om1 & ents1 & Hex & Hwf1 & Hm1).
    destruct (IH _ _ Hwf1) as (om' & ents' & Hrun & Hwf' & Hm').
    exists om', ents'. simpl. rewrite Hex. simpl.
    split_and!; [done|done|]. by rewrite Hm', Hm1.
Qed.

Lemma run_New_wf ops :
  ∃ om ents,
    run (K:=K) (V:=V) ops New = Some om ∧ wf om ents
    ∧ (list_to_map (contents ents) : gmap K V) = assoc ops.
Proof. apply (run_wf ops New []), wf_New. Qed.

Lemma reachable_wf om : reachable om → ∃ ents, wf om ents.
Proof.
  intros [ops Hrun]. destruct (run_New_wf ops) as (om' & ents & Hrun' & Hwf & _).
  rewrite Hrun in Hrun'. injection Hrun' as <-. eauto.
Qed.

Lemma reachable_exec om op om' :
  reachable om → exec om op = Some om' → reachable om'.
Proof.
  intros [ops Hrun] Hex. exists (ops ++ [op]).
  revert Hrun. generalize (New (K:=K) (V:=V)).
  induction ops as [|o ops IH]; intros om0; simpl.
  - intros [= ->]. by rewrite Hex.
  - destruct (exec om0 o); [apply IH|done].
Qed.

(** *** Traversal results as lists *)

Implicit Types (kvs l la lb : list (K * V)).

Lemma update_fresh key value l :
  key ∉ l.*1 → update key value <$> l = l.
Proof.
  induction l as [|[k v] l IH]; [done|]. csimpl.
  intros Hnotin. apply not_elem_of_cons in Hnotin as [Hne Hnotin].
  rewrite IH by done. unfold update. simpl. by rewrite decide_False.
Qed.

Lemma update_mid key value old la lb :
  key ∉ la.*1 → key ∉ lb.*1 →
  update key value <$> (la ++ (key, old) :: lb) = la ++ (key, value) :: lb.
Proof.
  intros H1 H2. rewrite fmap_app, fmap_cons, !update_fresh by done.
  unfold update. simpl. by rewrite decide_True.
Qed.

Lemma update_keys key value l : (update key value <$> l).*1 = l.*1.
Proof.
  induction l as [|[k v] l IH]; [done|]. csimpl. rewrite IH. f_equal.
  unfold update. simpl. by case_decide.
Qed.

Lemma without_fresh key l : key ∉ l.*1 → without key l = l.
Proof.
  unfold without. induction l as [|[k v] l IH]; [done|].
  csimpl. intros Hnotin. apply not_elem_of_cons in Hnotin as [Hne Hnotin].
  rewrite filter_cons_True by (simpl; congruence). by rewrite IH.
Qed.

Lemma without_app key la lb :
  without key (la ++ lb) = without key la ++ without key lb.
Proof. apply filter_app. Qed.

Lemma without_here key v l : without key ((key, v) :: l) = without key l.
Proof. unfold without. by rewrite filter_cons_False by (simpl; tauto). Qed.

Lemma skip_to_mid key v la lb :
  key ∉ la.*1 → skip_to key (la ++ (key, v) :: lb) = (key, v) :: lb.
Proof.
  induction la as [|[k w] la IH]; csimpl.
  - intros _. by rewrite decide_True.
  - intros Hnotin. apply not_elem_of_cons in Hnotin as [Hne Hnotin].
    rewrite decide_False by done. by apply IH.
Qed.

Lemma skip_to_fresh key l : key ∉ l.*1 → skip_to key l = [].
Proof.
  induction l as [|[k w] l IH]; [done|]. csimpl.
  intros Hnotin. apply not_elem_of_cons in Hnotin as [Hne Hnotin].
  rewrite decide_False by done. by apply IH.
Qed.

Lemma index_of_mid key v la lb :
  key ∉ la.*1 → index_of key (la ++ (key, v) :: lb) = Some (length la).
Proof.
  induction la as [|[k w] la IH]; csimpl.
  - intros _. by rewrite decide_True.
  - intros Hnotin. apply not_elem_of_cons in Hnotin as [Hne Hnotin].
    rewrite decide_False by done. by rewrite IH.
Qed.

(** *** Frame properties *)

Lemma Set_pairs_frame om key value r om' key' :
  Set_ om key value = Some (r, om') → key ≠ key' →
  pairs om' !! key' = pairs om !! key'.
Proof.
  unfold Set_. intros Hset Hne. destruct (pairs om !! key) as [p|].
  - destruct (heap om !! p); [|done]. simpl in Hset. by injection Hset as _ <-.
  - destruct (LinkedSequence.PushBack (list_ om) (htop om)) as [e l'].
    injection Hset as _ <-. simpl. by apply lookup_insert_ne.
Qed.

Lemma Delete_pairs_frame om key r om' key' :
  Delete om key = Some (r, om') → key ≠ key' →
  pairs om' !! key' = pairs om !! key'.
Proof.
  unfold Delete. intros Hdel Hne. destruct (pairs om !! key) as [p|].
  - destruct (heap om !! p) as [pair|]; [|done]. simpl in Hdel.
    destruct (element pair) as [e|]; [|done]. simpl in Hdel.
    destruct (LinkedSequence.Remove (list_ om) e); [|done].
    injection Hdel as _ <-. simpl. by apply lookup_delete_ne.
  - by injection Hdel as _ <-.
Qed.

(** One operation on [key] leaves the traversal of the other keys alone. *)
Lemma exec_order_frame om ents op :
  wf om ents →
  ∃ om' ents',
    exec om op = Some om' ∧ wf om' ents'
    ∧ without (op_key op) (contents ents') = without (op_key op) (contents ents).
Proof.
  intros Hwf. destruct op as [key value|key]; simpl;
    destruct (pairs om !! key) as [p|] eqn:Hp.
  - destruct (wf_find _ _ _ _ Hwf Hp) as (a & x & b & -> & <- & _ & Ha & Hb).
    destruct (Set_present_wf _ _ _ _ value Hwf) as (om' & -> & _ & _ & Hwf').
    exists om', (a ++ set_val value x :: b). split_and!; [done|done|].
    rewrite !contents_app. simpl.
    by rewrite !without_app, !(without_here (e_key x)).
  - destruct (Set_absent_wf _ _ _ value Hwf Hp)
      as (om' & x & -> & <- & <- & Hwf').
    exists om', (ents ++ [x]). split_and!; [done|done|].
    rewrite contents_app, without_app. simpl.
    by rewrite (without_here (e_key x)), app_nil_r.
  - destruct (wf_find _ _ _ _ Hwf Hp) as (a & x & b & -> & <- & _ & Ha & Hb).
    destruct (Delete_present_wf _ _ _ _ Hwf) as (om' & -> & Hwf').
    exists om', (a ++ b). split_and!; [done|done|].
    rewrite !contents_app. simpl.
    by rewrite !without_app, !(without_here (e_key x)).
  - rewrite (Delete_absent _ _ Hp). by exists om, ents.
Qed.

(** *** [Get] as a call *)

(** Whatever the map, a [Get] call that returns leaves it as it found it. *)
Lemma Get_call_state om key r om' :
  Get_call key om = Some (r, om') → om' = om.
Proof.
  unfold Get_call, bind, index_lookup, load, ret.
  destruct (pairs om !! key) as [p|].
  - destruct (heap om !! p) as [pair|]; [|done]. by intros [= _ <-].
  - by intros [= _ <-].
Qed.

(** The result of the call is the result [Get] computes from the map. *)
Lemma Get_call_result om key r om' :
  Get_call key om = Some (r, om') → Get om key = Some r.
Proof.
  unfold Get_call, bind, index_lookup, load, ret, Get.
  destruct (pairs om !! key) as [p|].
  - destruct (heap om !! p) as [pair|]; [|done]. by intros [= <- _].
  - by intros [= <- _].
Qed.

(** The call returns whenever [Get] has a result. *)
Lemma Get_call_returns om key r :
  Get om key = Some r → Get_call key om = Some (r, om).
Proof.
  unfold Get_call, bind, index_lookup, load, ret, Get.
  destruct (pairs om !! key) as [p|].
  - destruct (heap om !! p) as [pair|]; [|done]. by intros [= <-].
  - by intros [= <-].
Qed.
End facts.
End OrderedMapFacts.

(** * The claims *)

Import LinkedSequenceFacts OrderedMapFacts.

Section claims.
Context {K : Type} `{Countable K} {V : Type} `{GoZero V}.
Implicit Types (om : OrderedMap K V) (key : K) (value : V).
Implicit Types (kvs : list (K * V)) (fuel : nat).

(** C1: on a map built from [New] by any program, [Set] on a key that is
    present returns the old value and [true], keeps the very [Pair] object
    the index points to (the value is overwritten in place), and leaves
    the traversal order as it was: the forward traversal afterwards is the
    one before with the value of [key] replaced, so the sequence of keys is
    unchanged and so is every other pair. *)
Theorem Set_existing_key_in_place om key value old fuel kvs :
  reachable om →
  Get om key = Some (old, true) →
  forward fuel om = Some kvs →
  ∃ om',
    Set_ om key value = Some (old, true, om')
    ∧ GetPair om' key = GetPair om key
    ∧ Get om' key = Some (value, true)
    ∧ Len om' = Len om
    ∧ (∀ fuel', Len om' ≤ fuel' →
         forward fuel' om' = Some (update key value <$> kvs))
    ∧ (update key value <$> kvs).*1 = kvs.*1
    ∧ index_of key (update key value <$> kvs) = index_of key kvs
    ∧ without key (update key value <$> kvs) = without key kvs.
Proof.
  intros Hreach Hget Hfwd.
  destruct (reachable_wf _ Hreach) as [ents Hwf].
  destruct (Get_true_inv _ _ _ Hget) as [p Hp].
  destruct (wf_find _ _ _ _ Hwf Hp) as (a & x & b & -> & <- & _ & Ha & Hb).
  rewrite (Get_present_wf _ _ _ _ Hwf) in Hget. injection Hget as <-.
  apply (forward_inv _ _ _ _ Hwf) in Hfwd as ->.
  destruct (Set_present_wf _ _ _ _ value Hwf) as (om' & Hset & Hpairs & _ & Hwf').
  assert (update (e_key x) value <$> contents (a ++ x :: b)
          = contents (a ++ set_val value x :: b)) as Hupd.
  { rewrite !contents_app. simpl.
    apply update_mid; by rewrite contents_keys. }
  exists om'. split_and!.
  - done.
  - unfold GetPair. by rewrite Hpairs.
  - apply (Get_present_wf om' a (set_val value x) b Hwf').
  - rewrite (wf_Len _ _ Hwf), (wf_Len _ _ Hwf'), !length_app. done.
  - intros fuel' Hfuel. rewrite Hupd. apply forward_wf; [done|].
    by rewrite <- (wf_Len _ _ Hwf').
  - apply update_keys.
  - rewrite Hupd, !contents_app. simpl.
    rewrite (index_of_mid (e_key x) value), (index_of_mid (e_key x) (e_val x));
      by rewrite ?contents_keys.
  - rewrite Hupd, !contents_app. simpl.
    by rewrite !without_app, !(without_here (e_key x)).
Qed.

(** C2: on a map built from [New] by any program, [Set] on a key that is
    absent returns the zero value and [false]; it allocates a new [Pair],
    links it at the tail of the sequence (the forward traversal grows by
    [(key, value)] at its end and [Newest] is the new pair) and enters it
    into the index ([GetPair] and [Get] find it). *)
Theorem Set_new_key_appends om key value fuel kvs :
  reachable om →
  Get om key = Some (zero_value, false) →
  forward fuel om = Some kvs →
  ∃ om' p e,
    Set_ om key value = Some (zero_value, false, om')
    ∧ GetPair om' key = Some p
    ∧ Newest om' = Some (Some p)
    ∧ heap om' !! p = Some {| Key := key; Value := value; element := Some e |}
    ∧ LinkedSequence.Back (list_ om') = Some e
    ∧ Get om' key = Some (value, true)
    ∧ Len om' = S (Len om)
    ∧ (∀ fuel', Len om' ≤ fuel' →
         forward fuel' om' = Some (kvs ++ [(key, value)])).
Proof.
  intros Hreach Hget Hfwd.
  destruct (reachable_wf _ Hreach) as [ents Hwf].
  apply Get_false_inv in Hget as [Hnone _].
  apply (forward_inv _ _ _ _ Hwf) in Hfwd as ->.
  destruct (Set_absent_wf _ _ _ value Hwf Hnone)
    as (om' & x & Hset & <- & <- & Hwf').
  assert (x ∈ ents ++ [x]) as Hx.
  { apply elem_of_app. right. apply list_elem_of_here. }
  exists om', (e_ptr x), (e_handle x). split_and!.
  - done.
  - apply (wf_index _ _ _ Hwf' Hx).
  - rewrite (Newest_wf _ _ Hwf'). by rewrite last_snoc.
  - apply (wf_heap_mid _ _ _ _ Hwf').
  - destruct Hwf' as ((_ & _ & _ & Hback & _) & _).
    unfold LinkedSequence.Back. rewrite Hback, last_or_links.
    by rewrite last_snoc.
  - apply (Get_present_wf _ _ _ _ Hwf').
  - rewrite (wf_Len _ _ Hwf), (wf_Len _ _ Hwf'), length_app. simpl. lia.
  - intros fuel' Hfuel. rewrite (forward_wf _ _ _ Hwf').
    + by rewrite contents_app.
    + by rewrite <- (wf_Len _ _ Hwf').
Qed.

(** C3: on a map built from [New] by any program, [Delete] on a key that
    is present returns its value and [true], removes its node from the
    sequence (the traversal loses exactly that pair, the list is one
    shorter) and its key from the index; [Delete] on a key that is absent
    returns the zero value and [false] and the map is the very same; so a
    second [Delete] of the same key changes nothing and returns [false]. *)
Theorem Delete_present_absent_twice om key fuel kvs :
  reachable om →
  forward fuel om = Some kvs →
  (∀ v, Get om key = Some (v, true) →
     ∃ om' a b,
       kvs = a ++ (key, v) :: b
       ∧ (key ∉ (a ++ b).*1)
       ∧ Delete om key = Some (v, true, om')
       ∧ GetPair om' key = None
       ∧ Get om' key = Some (zero_value, false)
       ∧ S (Len om') = Len om
       ∧ LinkedSequence.Len (list_ om') = Len om'
       ∧ (∀ fuel', Len om' ≤ fuel' → forward fuel' om' = Some (a ++ b))
       ∧ Delete om' key = Some (zero_value, false, om'))
  ∧ (Get om key = Some (zero_value, false) →
     Delete om key = Some (zero_value, false, om)).
Proof.
  intros Hreach Hfwd.
  destruct (reachable_wf _ Hreach) as [ents Hwf]. split.
  - intros v Hget.
    destruct (Get_true_inv _ _ _ Hget) as [p Hp].
    destruct (wf_find _ _ _ _ Hwf Hp) as (a & x & b & -> & <- & _ & Ha & Hb).
    rewrite (Get_present_wf _ _ _ _ Hwf) in Hget. injection Hget as <-.
    apply (forward_inv _ _ _ _ Hwf) in Hfwd as ->.
    destruct (Delete_present_wf _ _ _ _ Hwf) as (om' & Hdel & Hwf').
    assert (pairs om' !! e_key x = None) as Hnone.
    { apply (wf_absent _ _ _ Hwf'). rewrite fmap_app.
      intros [?|?]%elem_of_app; done. }
    exists om', (contents a), (contents b). split_and!.
    + by rewrite contents_app.
    + rewrite <- contents_app, contents_keys, fmap_app.
      intros [?|?]%elem_of_app; done.
    + done.
    + done.
    + by apply Get_absent.
    + rewrite (wf_Len _ _ Hwf), (wf_Len _ _ Hwf'), !length_app. simpl. lia.
    + by rewrite (wf_Len _ _ Hwf'), (wf_list_Len _ _ Hwf').
    + intros fuel' Hfuel. rewrite <- contents_app.
      apply forward_wf; [done|]. by rewrite <- (wf_Len _ _ Hwf').
    + by apply Delete_absent.
  - intros [Hnone _]%Get_false_inv. by apply Delete_absent.
Qed.

(** C4: every program of [Set] and [Delete] calls run from [New] ends in
    a map whose [Len] is the number of distinct keys present (the keys
    [Get] finds), is the length of the linked sequence, and is the number
    of pairs visited by the forward traversal from [Oldest] and by the
    backward traversal from [Newest]; both traversals finish as soon as
    the fuel covers [Len]. *)
Theorem Len_invariant (ops : list (Op K V)) :
  ∃ om kvs,
    run ops New = Some om
    ∧ NoDup kvs.*1
    ∧ (∀ k, k ∈ kvs.*1 ↔ ∃ v, Get om k = Some (v, true))
    ∧ Len om = length kvs
    ∧ LinkedSequence.Len (list_ om) = Len om
    ∧ (∀ fuel, Len om ≤ fuel →
         forward fuel om = Some kvs ∧ backward fuel om = Some (reverse kvs))
    ∧ (∀ fuel l, forward fuel om = Some l → length l = Len om)
    ∧ (∀ fuel l, backward fuel om = Some l → length l = Len om).
Proof.
  destruct (run_New_wf ops) as (om & ents & Hrun & Hwf & _).
  exists om, (contents ents). split_and!.
  - done.
  - rewrite contents_keys. by destruct Hwf as (_ & ? & _).
  - intros k. rewrite contents_keys. split.
    + intros (x & -> & Hx)%list_elem_of_fmap.
      apply list_elem_of_split in Hx as (a & b & ->).
      exists (e_val x). apply (Get_present_wf _ _ _ _ Hwf).
    + intros [v Hget]. destruct (Get_true_inv _ _ _ Hget) as [p Hp].
      destruct (wf_find _ _ _ _ Hwf Hp) as (a & x & b & -> & <- & _).
      apply list_elem_of_fmap. exists x. split; [done|].
      apply elem_of_app. right. apply list_elem_of_here.
  - by rewrite (wf_Len _ _ Hwf), length_contents.
  - by rewrite (wf_Len _ _ Hwf), (wf_list_Len _ _ Hwf).
  - intros fuel Hfuel. rewrite (wf_Len _ _ Hwf) in Hfuel.
    by rewrite (forward_wf _ _ _ Hwf), (backward_wf _ _ _ Hwf).
  - intros fuel l ->%(forward_inv _ _ _ _ Hwf).
    by rewrite (wf_Len _ _ Hwf), length_contents.
  - intros fuel l ->%(backward_inv _ _ _ _ Hwf).
    by rewrite (wf_Len _ _ Hwf), length_reverse, length_contents.
Qed.

(** C5: on a map built from [New] by any program, deleting a present key
    and setting it again puts it at the tail: the traversal is the old one
    with the pair of [key] taken out and [(key, value)] put at the end,
    and [Newest] is its pair.  The other pairs keep their relative order.
    If some pair came after [key] before, the position of [key] has
    changed. *)
Theorem Delete_then_Set_moves_to_tail om key value old fuel kvs :
  reachable om →
  Get om key = Some (old, true) →
  forward fuel om = Some kvs →
  ∃ a b om1 om2 p,
    kvs = a ++ (key, old) :: b
    ∧ Delete om key = Some (old, true, om1)
    ∧ Set_ om1 key value = Some (zero_value, false, om2)
    ∧ Len om2 = Len om
    ∧ (∀ fuel', Len om2 ≤ fuel' →
         forward fuel' om2 = Some (a ++ b ++ [(key, value)]))
    ∧ GetPair om2 key = Some p
    ∧ Newest om2 = Some (Some p)
    ∧ index_of key kvs = Some (length a)
    ∧ index_of key (a ++ b ++ [(key, value)]) = Some (length a + length b)
    ∧ (b ≠ [] → index_of key (a ++ b ++ [(key, value)]) ≠ index_of key kvs)
    ∧ without key (a ++ b ++ [(key, value)]) = without key kvs.
Proof.
  intros Hreach Hget Hfwd.
  destruct (reachable_wf _ Hreach) as [ents Hwf].
  destruct (Get_true_inv _ _ _ Hget) as [p Hp].
  destruct (wf_find _ _ _ _ Hwf Hp) as (a & x & b & -> & <- & _ & Ha & Hb).
  rewrite (Get_present_wf _ _ _ _ Hwf) in Hget. injection Hget as <-.
  apply (forward_inv _ _ _ _ Hwf) in Hfwd as ->.
  destruct (Delete_present_wf _ _ _ _ Hwf) as (om1 & Hdel & Hwf1).
  assert (e_key x ∉ e_key <$> a ++ b) as Hab.
  { rewrite fmap_app. intros [?|?]%elem_of_app; done. }
  assert (pairs om1 !! e_key x = None) as Hnone.
  { by apply (wf_absent _ _ _ Hwf1). }
  destruct (Set_absent_wf _ _ _ value Hwf1 Hnone)
    as (om2 & y & Hset & Hky & <- & Hwf2).
  assert (y ∈ (a ++ b) ++ [y]) as Hy.
  { apply elem_of_app. right. apply list_elem_of_here. }
  assert (contents ((a ++ b) ++ [y])
          = contents a ++ contents b ++ [(e_key x, e_val y)]) as Hc2.
  { rewrite !contents_app, <- app_assoc. simpl. by rewrite Hky. }
  assert (index_of (e_key x) (contents a ++ contents b ++ [(e_key x, e_val y)])
          = Some (length (contents a) + length (contents b))) as Hnew.
  { rewrite app_assoc, index_of_mid, ?length_app; [done|].
    by rewrite <- contents_app, contents_keys. }
  assert (index_of (e_key x) (contents a ++ (e_key x, e_val x) :: contents b)
          = Some (length (contents a))) as Hold.
  { apply index_of_mid. by rewrite contents_keys. }
  exists (contents a), (contents b), om1, om2, (e_ptr y). split_and!.
  - by rewrite contents_app.
  - done.
  - done.
  - rewrite (wf_Len _ _ Hwf), (wf_Len _ _ Hwf2), !length_app. simpl. lia.
  - intros fuel' Hfuel. rewrite <- Hc2. apply forward_wf; [done|].
    by rewrite <- (wf_Len _ _ Hwf2).
  - rewrite <- Hky. apply (wf_index _ _ _ Hwf2 Hy).
  - rewrite (Newest_wf _ _ Hwf2). by rewrite last_snoc.
  - by rewrite contents_app.
  - done.
  - intros Hne. rewrite contents_app. simpl. rewrite Hnew, Hold.
    intros [= Heq]. destruct (contents b); [done|]. simpl in Heq. lia.
  - rewrite contents_app. simpl.
    rewrite !without_app, !(without_here (e_key x)). simpl.
    by rewrite app_nil_r.
Qed.

(** C6: on a map built from [New] by any program, the backward traversal
    ([Newest], then [Prev] until [nil]) is the exact reverse of the
    forward traversal ([Oldest], then [Next] until [nil]); both finish
    once the fuel covers [Len], and no amount of fuel yields another
    result. *)
Theorem forward_backward_reverse om :
  reachable om →
  ∃ kvs,
    (∀ fuel, Len om ≤ fuel →
       forward fuel om = Some kvs ∧ backward fuel om = Some (reverse kvs))
    ∧ (∀ fuel fuel' fw bw,
         forward fuel om = Some fw → backward fuel' om = Some bw →
         bw = reverse fw).
Proof.
  intros Hreach. destruct (reachable_wf _ Hreach) as [ents Hwf].
  exists (contents ents). split.
  - intros fuel Hfuel. rewrite (wf_Len _ _ Hwf) in Hfuel.
    by rewrite (forward_wf _ _ _ Hwf), (backward_wf _ _ _ Hwf).
  - by intros fuel fuel' fw bw ->%(forward_inv _ _ _ _ Hwf)
                                   ->%(backward_inv _ _ _ _ Hwf).
Qed.

(** C7: on a map built from [New] by any program, for a key that is
    present the traversal that starts at [GetPair key] and follows [Next]
    is the traversal from [Oldest] with the pairs before [key] skipped (it
    starts with the pair of [key]); for a key that is absent [GetPair] is
    [nil]. *)
Theorem GetPair_resumes_traversal om key fuel kvs :
  reachable om →
  forward fuel om = Some kvs →
  (∀ v, Get om key = Some (v, true) →
     is_Some (GetPair om key)
     ∧ head (skip_to key kvs) = Some (key, v)
     ∧ (∀ fuel', length (skip_to key kvs) ≤ fuel' →
          forward_from fuel' om key = Some (skip_to key kvs)))
  ∧ (Get om key = Some (zero_value, false) →
     GetPair om key = None ∧ skip_to key kvs = []).
Proof.
  intros Hreach Hfwd.
  destruct (reachable_wf _ Hreach) as [ents Hwf].
  apply (forward_inv _ _ _ _ Hwf) in Hfwd as ->. split.
  - intros v Hget.
    destruct (Get_true_inv _ _ _ Hget) as [p Hp].
    destruct (wf_find _ _ _ _ Hwf Hp) as (a & x & b & -> & <- & <- & Ha & Hb).
    rewrite (Get_present_wf _ _ _ _ Hwf) in Hget. injection Hget as <-.
    assert (skip_to (e_key x) (contents (a ++ x :: b)) = contents (x :: b))
      as ->.
    { rewrite contents_app. simpl. apply skip_to_mid.
      by rewrite contents_keys. }
    split_and!.
    + unfold GetPair. eauto.
    + done.
    + intros fuel' Hfuel. unfold forward_from, GetPair. rewrite Hp.
      apply (iterate_Next_wf om a (x :: b)); [done|].
      by rewrite length_contents in Hfuel.
  - intros [Hnone _]%Get_false_inv. split; [done|].
    apply skip_to_fresh. rewrite contents_keys.
    by apply (wf_absent _ _ _ Hwf).
Qed.

(** C8: after any program run from [New], a [Get] call returns: its
    result is the value that the program last set for the key, with
    [true], if the key was set and not deleted since, and the zero value
    with [false] otherwise; and the map after the call is the map before
    it, so that [Len], what [Get] and [GetPair] answer for every key (the
    key set and all values), and the forward and backward traversals (the
    order) are identical before and after the call. *)
Theorem Get_returns_current_value (ops : list (Op K V)) key :
  ∃ om r,
    run ops New = Some om
    ∧ r = match assoc ops !! key with
          | Some v => (v, true)
          | None => (zero_value, false)
          end
    ∧ Get om key = Some r
    ∧ ∃ om',
        Get_call key om = Some (r, om')
        ∧ om' = om
        ∧ Len om' = Len om
        ∧ (∀ k, Get om' k = Get om k)
        ∧ (∀ k, GetPair om' k = GetPair om k)
        ∧ (∀ fuel, forward fuel om' = forward fuel om)
        ∧ (∀ fuel, backward fuel om' = backward fuel om).
Proof.
  destruct (run_New_wf ops) as (om & ents & Hrun & Hwf & Hassoc).
  assert (Get om key = Some match assoc ops !! key with
                            | Some v => (v, true)
                            | None => (zero_value, false)
                            end) as Hget.
  { rewrite (Get_wf _ _ _ Hwf), Hassoc. by destruct (assoc ops !! key). }
  eexists om, _. split_and!; [done|reflexivity|done|].
  pose proof (Get_call_returns _ _ _ Hget) as Hcall.
  exists om. by split_and!.
Qed.

(** C9: on a map built from [New] by any program, [Set] and [Delete] on
    [key] leave every other key [key'] as it was: [Get key'] returns the
    same result, [GetPair key'] the same pair, and the traversal restricted
    to the keys other than [key] is the same list of pairs. *)
Theorem Set_Delete_frame om key key' value fuel kvs :
  reachable om →
  key ≠ key' →
  forward fuel om = Some kvs →
  ∃ r1 om1 kvs1 r2 om2 kvs2,
    Set_ om key value = Some (r1, om1)
    ∧ Delete om key = Some (r2, om2)
    ∧ Get om1 key' = Get om key'
    ∧ Get om2 key' = Get om key'
    ∧ GetPair om1 key' = GetPair om key'
    ∧ GetPair om2 key' = GetPair om key'
    ∧ (∀ fuel', Len om1 ≤ fuel' → forward fuel' om1 = Some kvs1)
    ∧ (∀ fuel', Len om2 ≤ fuel' → forward fuel' om2 = Some kvs2)
    ∧ without key kvs1 = without key kvs
    ∧ without key kvs2 = without key kvs.
Proof.
  intros Hreach Hne Hfwd.
  destruct (reachable_wf _ Hreach) as [ents Hwf].
  apply (forward_inv _ _ _ _ Hwf) in Hfwd as ->.
  destruct (exec_wf _ _ (OpSet key value) Hwf) as (om1 & ents1 & Hex1 & Hwf1 & Hm1).
  destruct (exec_order_frame _ _ (OpSet key value) Hwf)
    as (om1' & ents1' & Hex1' & Hwf1' & Ho1).
  destruct (exec_wf _ _ (OpDelete key) Hwf) as (om2 & ents2 & Hex2 & Hwf2 & Hm2).
  destruct (exec_order_frame _ _ (OpDelete key) Hwf)
    as (om2' & ents2' & Hex2' & Hwf2' & Ho2).
  rewrite Hex1 in Hex1'. injection Hex1' as <-.
  rewrite Hex2 in Hex2'. injection Hex2' as <-.
  simpl in Hex1, Hex2, Ho1, Ho2, Hm1, Hm2.
  destruct (Set_ om key value) as [[r1 om1']|] eqn:Hset; [|done].
  destruct (Delete om key) as [[r2 om2']|] eqn:Hdel; [|done].
  simpl in Hex1, Hex2. injection Hex1 as ->. injection Hex2 as ->.
  exists r1, om1, (contents ents1'), r2, om2, (contents ents2'). split_and!.
  - done.
  - done.
  - rewrite (Get_wf _ _ _ Hwf1), (Get_wf _ _ _ Hwf), Hm1.
    by rewrite lookup_insert_ne.
  - rewrite (Get_wf _ _ _ Hwf2), (Get_wf _ _ _ Hwf), Hm2.
    by rewrite lookup_delete_ne.
  - apply (Set_pairs_frame _ _ _ _ _ _ Hset Hne).
  - apply (Delete_pairs_frame _ _ _ _ _ Hdel Hne).
  - intros fuel' Hfuel. apply forward_wf; [done|].
    by rewrite <- (wf_Len _ _ Hwf1').
  - intros fuel' Hfuel. apply forward_wf; [done|].
    by rewrite <- (wf_Len _ _ Hwf2').
  - done.
  - done.
Qed.

(** C10: [New] creates an empty map: [Len] is 0, [Oldest] and [Newest]
    are [nil], and both traversals visit nothing.  It takes no parameter:
    there is no optional pre-size. *)
Theorem New_is_empty :
  New_params = []
  ∧ Len (New (K:=K) (V:=V)) = 0
  ∧ Oldest (New (K:=K) (V:=V)) = Some None
  ∧ Newest (New (K:=K) (V:=V)) = Some None
  ∧ LinkedSequence.Len (list_ (New (K:=K) (V:=V))) = 0
  ∧ (∀ fuel, forward fuel (New (K:=K) (V:=V)) = Some []
             ∧ backward fuel (New (K:=K) (V:=V)) = Some []).
Proof.
  split_and!; try done.
  intros fuel. split; by destruct fuel.
Qed.
End claims.

(** * The statements on the maps of the package tests *)

Section scenario.
Import Scenario.
Local Open Scope string_scope.

Lemma Set_existing_key_in_place_witness :
  reachable om4
  ∧ Get om4 "yin" = Some ("yang", true)
  ∧ forward 4 om4 = Some kvs4
  ∧ ∃ om', Set_ om4 "yin" "bla" = Some ("yang", true, om')
           ∧ forward 4 om' =
               Some [("foo", "bar"); ("bip", "bop"); ("yin", "bla"); ("bar", "baz")].
Proof.
  assert (reachable om4) as Hreach by (by exists ops4).
  split_and!; [done|done|done|].
  destruct (Set_existing_key_in_place om4 "yin" "bla" "yang" 4 kvs4)
    as (om' & Hset & _ & _ & Hlen & Hfwd & _); [done|done|done|].
  exists om'. split; [done|]. apply Hfwd. rewrite Hlen. vm_compute. lia.
Defined.

Lemma Set_new_key_appends_witness :
  reachable om4
  ∧ Get om4 "new" = Some ("", false)
  ∧ forward 4 om4 = Some kvs4
  ∧ ∃ om' p, Set_ om4 "new" "val" = Some ("", false, om')
             ∧ Newest om' = Some (Some p)
             ∧ GetPair om' "new" = Some p
             ∧ forward 5 om' = Some (kvs4 ++ [("new", "val")])%list.
Proof.
  assert (reachable om4) as Hreach by (by exists ops4).
  split_and!; [done|done|done|].
  destruct (Set_new_key_appends om4 "new" "val" 4 kvs4)
    as (om' & p & e & Hset & Hpair & Hnew & _ & _ & _ & Hlen & Hfwd);
    [done|done|done|].
  exists om', p. split_and!; [done|done|done|].
  apply Hfwd. rewrite Hlen. vm_compute. lia.
Defined.

Lemma Delete_present_absent_twice_witness :
  reachable om4
  ∧ forward 4 om4 = Some kvs4
  ∧ (∃ om' a b, kvs4 = (a ++ ("yin", "yang") :: b)%list
                ∧ Delete om4 "yin" = Some ("yang", true, om')
                ∧ forward 3 om' = Some (a ++ b)%list
                ∧ Delete om' "yin" = Some ("", false, om'))
  ∧ Delete om4 "nope" = Some ("", false, om4).
Proof.
  assert (reachable om4) as Hreach by (by exists ops4).
  split_and!; [done|done| |].
  - destruct (Delete_present_absent_twice om4 "yin" 4 kvs4 Hreach eq_refl)
      as [Hpresent _].
    destruct (Hpresent "yang" eq_refl)
      as (om' & a & b & Hkvs & _ & Hdel & _ & _ & Hlen & _ & Hfwd & Htwice).
    exists om', a, b. split_and!; [done|done| |done].
    apply Hfwd. assert (Len om4 = 4) as Hl4 by done. lia.
  - by apply (Delete_present_absent_twice om4 "nope" 4 kvs4 Hreach eq_refl).
Defined.

Lemma Delete_then_Set_moves_to_tail_witness :
  reachable om4
  ∧ Get om4 "yin" = Some ("yang", true)
  ∧ forward 4 om4 = Some kvs4
  ∧ ∃ a b om1 om2,
      kvs4 = (a ++ ("yin", "yang") :: b)%list
      ∧ Delete om4 "yin" = Some ("yang", true, om1)
      ∧ Set_ om1 "yin" "yang" = Some ("", false, om2)
      ∧ forward 4 om2 = Some (a ++ b ++ [("yin", "yang")])%list
      ∧ index_of "yin" kvs4 = Some (length a).
Proof.
  assert (reachable om4) as Hreach by (by exists ops4).
  split_and!; [done|done|done|].
  destruct (Delete_then_Set_moves_to_tail om4 "yin" "yang" "yang" 4 kvs4)
    as (a & b & om1 & om2 & p & Hkvs & Hdel & Hset & Hlen & Hfwd & _ & _ & Hidx & _);
    [done|done|done|].
  exists a, b, om1, om2. split_and!; [done|done|done| |done].
  apply Hfwd. rewrite Hlen. vm_compute. lia.
Defined.

Lemma forward_backward_reverse_witness :
  reachable om4
  ∧ ∃ kvs, forward 4 om4 = Some kvs ∧ backward 4 om4 = Some (reverse kvs).
Proof.
  assert (reachable om4) as Hreach by (by exists ops4).
  split; [done|].
  destruct (forward_backward_reverse om4 Hreach) as (kvs & Hboth & _).
  exists kvs. apply Hboth. vm_compute. lia.
Defined.

Lemma GetPair_resumes_traversal_witness :
  reachable om4
  ∧ forward 4 om4 = Some kvs4
  ∧ Get om4 "yin" = Some ("yang", true)
  ∧ forward_from 2 om4 "yin" = Some [("yin", "yang"); ("bar", "baz")]
  ∧ Get om4 "nope" = Some ("", false)
  ∧ GetPair om4 "nope" = None.
Proof.
  assert (reachable om4) as Hreach by (by exists ops4).
  destruct (GetPair_resumes_traversal om4 "yin" 4 kvs4 Hreach eq_refl)
    as [Hpresent _].
  destruct (GetPair_resumes_traversal om4 "nope" 4 kvs4 Hreach eq_refl)
    as [_ Habsent].
  split_and!; [done|done|done| |done|].
  - destruct (Hpresent "yang" eq_refl) as (_ & _ & Hfrom).
    apply (Hfrom 2). vm_compute. lia.
  - by destruct (Habsent eq_refl).
Defined.

Lemma Set_Delete_frame_witness :
  reachable om4
  ∧ "yin" ≠ "foo"
  ∧ forward 4 om4 = Some kvs4
  ∧ ∃ r1 om1 r2 om2,
      Set_ om4 "yin" "bla" = Some (r1, om1)
      ∧ Delete om4 "yin" = Some (r2, om2)
      ∧ Get om1 "foo" = Some ("bar", true)
      ∧ Get om2 "foo" = Some ("bar", true).
Proof.
  assert (reachable om4) as Hreach by (by exists ops4).
  split_and!; [done|done|done|].
  destruct (Set_Delete_frame om4 "yin" "foo" "bla" 4 kvs4)
    as (r1 & om1 & kvs1 & r2 & om2 & kvs2 & Hset & Hdel & Hg1 & Hg2 & _);
    [done|done|done|].
  exists r1, om1, r2, om2. split_and!; [done|done| |].
  - by rewrite Hg1.
  - by rewrite Hg2.
Defined.

(** C10 asks for an optional pre-size parameter of the constructor:
    [New] has no parameter at all. *)
Lemma New_has_no_pre_size_parameter : ¬ ∃ param, param ∈ New_params.
Proof. intros [param Hin]. by apply elem_of_nil in Hin. Qed.

(** *** The scenarios of the package tests *)

(** [TestUpdatingDoesntChangePairsOrder] *)
Example updating_keeps_order :
  (om ← run (ops4 ++ [OpSet "yin" "bla"]) New; forward 4 om)
  = Some [("foo", "bar"); ("bip", "bop"); ("yin", "bla"); ("bar", "baz")].
Proof. reflexivity. Qed.

(** [TestDeletingAndReinsertingChangesPairsOrder] *)
Example reinserting_moves_to_tail :
  (om ← run (ops4 ++ [OpDelete "yin"; OpSet "yin" "yang"]) New;
   fw ← forward 4 om; bw ← backward 4 om; Some (fw, bw))
  = Some ([("foo", "bar"); ("bip", "bop"); ("bar", "baz"); ("yin", "yang")],
          [("yin", "yang"); ("bar", "baz"); ("bip", "bop"); ("foo", "bar")]).
Proof. reflexivity. Qed.

(** [TestEmptyMapOperations] *)
Example empty_map_operations :
  Get (New (K:=string) (V:=string)) "foo" = Some ("", false)
  ∧ Delete (New (K:=string) (V:=string)) "bar" = Some ("", false, New)
  ∧ Len (New (K:=string) (V:=string)) = 0.
Proof. done. Qed.

(** [TestBasicFeatures]: the keys 0..99 with the values 2*key, forward
    and backward, and resumed from key 42. *)
Example basic_features :
  (om ← run (fill 100) New;
   fw ← forward 100 om; bw ← backward 100 om;
   Some (Len om, fw, bw, forward_from 58 om 42))
  = Some (100, doubles 100, reverse (doubles 100),
          Some (drop 42 (doubles 100))).
Proof. vm_compute. reflexivity. Qed.
End scenario.

(** * Further properties of the operations *)

Module OrderedMapMore.
Import LinkedSequenceFacts OrderedMap OrderedMapFacts.

Section facts.
Context {K : Type} `{Countable K} {V : Type} `{GoZero V}.
Implicit Types (om : OrderedMap K V) (ents a b : list (Entry K V)).
Implicit Types (x : Entry K V) (key : K) (value : V).
Implicit Types (kvs l la lb : list (K * V)).

(** What [Set] writes, read off its two branches. *)
Lemma Set_present_shape om key value p r om' :
  pairs om !! key = Some p → Set_ om key value = Some (r, om') →
  pairs om' = pairs om ∧ list_ om' = list_ om ∧ htop om' = htop om
  ∧ (∀ q, q ≠ p → heap om' !! q = heap om !! q).
Proof.
  unfold Set_. intros -> Hset.
  destruct (heap om !! p) as [pair|]; [|done]. simpl in Hset.
  injection Hset as _ <-. simpl. split_and!; try done.
  intros q Hq. by apply lookup_insert_ne.
Qed.

Lemma Set_absent_shape om key value r om' :
  pairs om !! key = None → Set_ om key value = Some (r, om') →
  pairs om' = <[key := htop om]> (pairs om)
  ∧ htop om' = Pos.succ (htop om)
  ∧ (∀ q, q ≠ htop om → heap om' !! q = heap om !! q).
Proof.
  unfold Set_. intros -> Hset.
  destruct (LinkedSequence.PushBack (list_ om) (htop om)) as [e l'].
  injection Hset as _ <-. simpl. split_and!; try done.
  intros q Hq. by rewrite !lookup_insert_ne.
Qed.

Lemma Delete_shape om key r om' :
  Delete om key = Some (r, om') →
  heap om' = heap om ∧ htop om' = htop om
  ∧ pairs om' = delete key (pairs om).
Proof.
  unfold Delete. intros Hdel. destruct (pairs om !! key) as [p|] eqn:Hp.
  - destruct (heap om !! p) as [pair|]; [|done]. simpl in Hdel.
    destruct (element pair) as [e|]; [|done]. simpl in Hdel.
    destruct (LinkedSequence.Remove (list_ om) e); [|done].
    by injection Hdel as _ <-.
  - injection Hdel as _ <-. split_and!; try done.
    by rewrite delete_id.
Qed.

(** The two outcomes of [Set] on a well-formed map. *)
Lemma Set_cases om ents key value r om' :
  wf om ents → Set_ om key value = Some (r, om') →
  (∃ a x b, ents = a ++ x :: b ∧ e_key x = key ∧ r = (e_val x, true)
            ∧ wf om' (a ++ set_val value x :: b))
  ∨ (pairs om !! key = None ∧ r = (zero_value, false)
     ∧ ∃ x, e_key x = key ∧ e_val x = value ∧ e_ptr x = htop om
            ∧ wf om' (ents ++ [x])).
Proof.
  intros Hwf Hset. destruct (pairs om !! key) as [p|] eqn:Hp.
  - left. destruct (wf_find _ _ _ _ Hwf Hp) as (a & x & b & -> & <- & _).
    destruct (Set_present_wf _ _ _ _ value Hwf) as (om1 & Hset1 & _ & _ & Hwf1).
    rewrite Hset in Hset1. injection Hset1 as -> ->.
    exists a, x, b. by split_and!.
  - right. destruct (Set_absent_wf _ _ _ value Hwf Hp)
      as (om1 & x & Hset1 & Hk & Hv & Hwf1).
    rewrite Hset in Hset1. injection Hset1 as -> ->.
    split_and!; [done|done|]. exists x. split_and!; try done.
    destruct (Set_absent_shape _ _ _ _ _ Hp Hset) as (Hpairs & _).
    assert (pairs om1 !! key = Some (e_ptr x)) as Hidx.
    { rewrite <- Hk. apply (wf_index _ _ _ Hwf1).
      apply elem_of_app. right. apply list_elem_of_here. }
    rewrite Hpairs, lookup_insert_eq in Hidx. by injection Hidx.
Qed.

(** The two outcomes of [Delete] on a well-formed map. *)
Lemma Delete_cases om ents key r om' :
  wf om ents → Delete om key = Some (r, om') →
  (∃ a x b, ents = a ++ x :: b ∧ e_key x = key ∧ r = (e_val x, true)
            ∧ wf om' (a ++ b))
  ∨ (pairs om !! key = None ∧ r = (zero_value, false) ∧ om' = om).
Proof.
  intros Hwf Hdel. destruct (pairs om !! key) as [p|] eqn:Hp.
  - left. destruct (wf_find _ _ _ _ Hwf Hp) as (a & x & b & -> & <- & _).
    destruct (Delete_present_wf _ _ _ _ Hwf) as (om1 & Hdel1 & Hwf1).
    rewrite Hdel in Hdel1. injection Hdel1 as -> ->.
    exists a, x, b. by split_and!.
  - right. rewrite (Delete_absent _ _ Hp) in Hdel.
    injection Hdel as <- <-. by split_and!.
Qed.

(** On a well-formed map neither operation gets stuck. *)
Lemma Set_total om ents key value :
  wf om ents → ∃ r om', Set_ om key value = Some (r, om').
Proof.
  intros Hwf. destruct (exec_wf _ _ (OpSet key value) Hwf)
    as (om' & ents' & Hex & _). simpl in Hex.
  destruct (Set_ om key value) as [[r om1]|]; [eauto|done].
Qed.

Lemma Delete_total om ents key :
  wf om ents → ∃ r om', Delete om key = Some (r, om').
Proof.
  intros Hwf. destruct (exec_wf _ _ (OpDelete key) Hwf)
    as (om' & ents' & Hex & _). simpl in Hex.
  destruct (Delete om key) as [[r om1]|]; [eauto|done].
Qed.

Lemma reachable_Set om key value r om' :
  reachable om → Set_ om key value = Some (r, om') → reachable om'.
Proof.
  intros Hreach Hset. apply (reachable_exec om (OpSet key value)); [done|].
  simpl. by rewrite Hset.
Qed.

Lemma reachable_Delete om key r om' :
  reachable om → Delete om key = Some (r, om') → reachable om'.
Proof.
  intros Hreach Hdel. apply (reachable_exec om (OpDelete key)); [done|].
  simpl. by rewrite Hdel.
Qed.

(** Resuming from a key of the index, in both directions. *)
Lemma forward_from_wf om a x b fuel :
  wf om (a ++ x :: b) → length (x :: b) ≤ fuel →
  forward_from fuel om (e_key x) = Some (contents (x :: b)).
Proof.
  intros Hwf Hfuel. unfold forward_from, GetPair.
  rewrite (wf_index om (a ++ x :: b) x Hwf).
  - by apply (iterate_Next_wf om a (x :: b)).
  - apply elem_of_app. right. apply list_elem_of_here.
Qed.

Lemma backward_from_wf om a x b fuel :
  wf om (a ++ x :: b) → length (a ++ [x]) ≤ fuel →
  backward_from fuel om (e_key x) = Some (reverse (contents (a ++ [x]))).
Proof.
  intros Hwf Hfuel. unfold backward_from, GetPair.
  rewrite (wf_index om (a ++ x :: b) x Hwf).
  - pose proof (iterate_Prev_wf om (a ++ [x]) b fuel) as Hit.
    rewrite last_snoc, <- app_assoc in Hit. by apply Hit.
  - apply elem_of_app. right. apply list_elem_of_here.
Qed.

Lemma upto_mid key v la lb :
  key ∉ la.*1 → upto key (la ++ (key, v) :: lb) = la ++ [(key, v)].
Proof.
  induction la as [|[k w] la IH]; csimpl.
  - intros _. by rewrite decide_True.
  - intros Hnotin. apply not_elem_of_cons in Hnotin as [Hne Hnotin].
    rewrite decide_False by done. by rewrite IH.
Qed.

Lemma skip_to_without key key' l :
  key ≠ key' → skip_to key' (without key l) = without key (skip_to key' l).
Proof.
  intros Hne. unfold without. induction l as [|[k w] l IH]; [done|].
  simpl. destruct (decide (k = key)) as [->|Hk].
  - rewrite filter_cons_False by (simpl; tauto).
    rewrite decide_False by done. done.
  - rewrite filter_cons_True by done. simpl.
    destruct (decide (k = key')) as [->|Hk']; [|done].
    by rewrite filter_cons_True by done.
Qed.

Lemma without_mid key v la lb :
  key ∉ la.*1 → key ∉ lb.*1 → without key (la ++ (key, v) :: lb) = la ++ lb.
Proof.
  intros Ha Hb. by rewrite without_app, without_here, !without_fresh.
Qed.

Lemma forward_from_skip om ents key fuel :
  wf om ents → is_Some (pairs om !! key) → length ents ≤ fuel →
  forward_from fuel om key = Some (skip_to key (contents ents)).
Proof.
  intros Hwf [p Hp] Hfuel.
  destruct (wf_find _ _ _ _ Hwf Hp) as (a & x & b & -> & <- & _ & Ha & _).
  rewrite (forward_from_wf _ _ _ _ _ Hwf).
  - rewrite contents_app. simpl. rewrite skip_to_mid; [done|].
    by rewrite contents_keys.
  - rewrite length_app in Hfuel. simpl in *. lia.
Qed.

(** The index is injective: one [Pair] per key. *)
Lemma wf_index_inj om ents key key' p :
  wf om ents → pairs om !! key = Some p → pairs om !! key' = Some p →
  key = key'.
Proof.
  intros Hwf Hp Hp'.
  destruct (wf_find _ _ _ _ Hwf Hp) as (a & x & b & Hents & <- & Hx & _).
  destruct (wf_find _ _ _ _ Hwf Hp') as (a' & y & b' & Hents' & <- & Hy & _).
  apply (wf_ptr_key om ents); [done| | |congruence].
  - rewrite Hents. apply elem_of_app. right. apply list_elem_of_here.
  - rewrite Hents'. apply elem_of_app. right. apply list_elem_of_here.
Qed.

Lemma wf_live om ents key p :
  wf om ents → pairs om !! key = Some p →
  is_Some (heap om !! p) ∧ (p < htop om)%positive.
Proof.
  intros Hwf Hp.
  destruct (wf_find _ _ _ _ Hwf Hp) as (a & x & b & -> & _ & <- & _).
  pose proof (wf_heap_mid _ _ _ _ Hwf) as Hheap.
  destruct Hwf as (_ & _ & _ & _ & Htop). split; [eauto|].
  apply Htop. eauto.
Qed.

(** An operation on another key leaves the [Pair] of [key] alone: the
    index still points to it and the object is untouched. *)
Lemma exec_keeps_pair om ents op key p :
  wf om ents → pairs om !! key = Some p → op_key op ≠ key →
  ∃ om' ents',
    exec om op = Some om' ∧ wf om' ents'
    ∧ pairs om' !! key = Some p ∧ heap om' !! p = heap om !! p.
Proof.
  intros Hwf Hp Hne.
  destruct (exec_wf _ _ op Hwf) as (om' & ents' & Hex & Hwf' & _).
  exists om', ents'. split_and!; [done|done| |];
    destruct op as [k v|k]; simpl in Hex, Hne.
  - destruct (Set_ om k v) as [[r om1]|] eqn:Hset; [|done].
    injection Hex as ->. by rewrite (Set_pairs_frame _ _ _ _ _ _ Hset Hne).
  - destruct (Delete om k) as [[r om1]|] eqn:Hdel; [|done].
    injection Hex as ->. by rewrite (Delete_pairs_frame _ _ _ _ _ Hdel Hne).
  - destruct (Set_ om k v) as [[r om1]|] eqn:Hset; [|done].
    injection Hex as ->. destruct (pairs om !! k) as [p2|] eqn:Hp2.
    + destruct (Set_present_shape _ _ _ _ _ _ Hp2 Hset) as (_ & _ & _ & Hfr).
      apply Hfr. intros ->. apply Hne.
      by apply (wf_index_inj _ _ _ _ _ Hwf Hp2 Hp).
    + destruct (Set_absent_shape _ _ _ _ _ Hp2 Hset) as (_ & _ & Hfr).
      apply Hfr. destruct (wf_live _ _ _ _ Hwf Hp) as [_ Hlt]. lia.
  - destruct (Delete om k) as [[r om1]|] eqn:Hdel; [|done].
    injection Hex as ->.
    destruct (Delete_shape _ _ _ _ Hdel) as (-> & _). done.
Qed.
End facts.
End OrderedMapMore.

Import OrderedMapMore.

Section extras.
Context {K : Type} `{Countable K} {V : Type} `{GoZero V}.
Implicit Types (om : OrderedMap K V) (key : K) (value : V).
Implicit Types (kvs : list (K * V)) (fuel : nat).

(** X1: "Set sets the key-value pair, and returns what Get would have
    returned on that key prior to the call to Set".  On every map built
    from [New], [Set] succeeds and its result is the result of [Get] on
    the map before. *)
Theorem Set_returns_prior_Get om key value :
  reachable om →
  ∃ r om', Get om key = Some r ∧ Set_ om key value = Some (r, om').
Proof.
  intros Hreach. destruct (reachable_wf _ Hreach) as [ents Hwf].
  destruct (Set_total _ _ key value Hwf) as (r & om' & Hset).
  exists r, om'. split; [|done].
  destruct (Set_cases _ _ _ _ _ _ Hwf Hset)
    as [(a & x & b & -> & <- & -> & _)|(Hnone & -> & _)].
  - apply (Get_present_wf _ _ _ _ Hwf).
  - by apply Get_absent.
Qed.

(** X2: "Delete removes the key-value pair, and returns what Get would
    have returned on that key prior to the call to Delete".  On every map
    built from [New], [Delete] succeeds and its result is the result of
    [Get] on the map before. *)
Theorem Delete_returns_prior_Get om key :
  reachable om →
  ∃ r om', Get om key = Some r ∧ Delete om key = Some (r, om').
Proof.
  intros Hreach. destruct (reachable_wf _ Hreach) as [ents Hwf].
  destruct (Delete_total _ _ key Hwf) as (r & om' & Hdel).
  exists r, om'. split; [|done].
  destruct (Delete_cases _ _ _ _ _ Hwf Hdel)
    as [(a & x & b & -> & <- & -> & _)|(Hnone & -> & _)].
  - apply (Get_present_wf _ _ _ _ Hwf).
  - by apply Get_absent.
Qed.

(** X3: whatever the key was before, [Set(key, value)] succeeds and
    afterwards both [Get] and [GetPair] find the key with that value;
    [Delete(key)] succeeds and afterwards [Get] reports the zero value with
    [false] and [GetPair] is [nil]. *)
Theorem Get_after_Set_and_Delete om key value :
  reachable om →
  (∃ r om' p pair,
     Set_ om key value = Some (r, om')
     ∧ Get om' key = Some (value, true)
     ∧ GetPair om' key = Some p ∧ heap om' !! p = Some pair
     ∧ Key pair = key ∧ Value pair = value)
  ∧ (∃ r om',
       Delete om key = Some (r, om')
       ∧ Get om' key = Some (zero_value, false) ∧ GetPair om' key = None).
Proof.
  intros Hreach. destruct (reachable_wf _ Hreach) as [ents Hwf]. split.
  - destruct (Set_total _ _ key value Hwf) as (r & om' & Hset).
    assert (∃ a x b, wf om' (a ++ x :: b) ∧ e_key x = key ∧ e_val x = value)
      as (a & x & b & Hwf' & <- & <-).
    { destruct (Set_cases _ _ _ _ _ _ Hwf Hset)
        as [(a & x & b & -> & <- & -> & Hwf')
           |(Hnone & -> & x & <- & <- & _ & Hwf')].
      - by exists a, (set_val value x), b.
      - exists ents, x, []. by split_and!. }
    exists r, om', (e_ptr x),
      {| Key := e_key x; Value := e_val x; element := Some (e_handle x) |}.
    split_and!; try done.
    + apply (Get_present_wf _ _ _ _ Hwf').
    + apply (wf_index _ _ _ Hwf'). apply elem_of_app. right.
      apply list_elem_of_here.
    + apply (wf_heap_mid _ _ _ _ Hwf').
  - destruct (Delete_total _ _ key Hwf) as (r & om' & Hdel).
    destruct (Delete_shape _ _ _ _ Hdel) as (_ & _ & Hpairs).
    assert (pairs om' !! key = None) as Hnone.
    { rewrite Hpairs. apply lookup_delete_eq. }
    exists r, om'. split_and!; [done|by apply Get_absent|done].
Qed.

(** X4: a second [Set] on the same key overwrites the first without a
    trace: it returns the first value with [true] and ends in exactly the
    state that the second [Set] alone would have produced.  With equal
    values, repeating a [Set] changes nothing at all. *)
Theorem Set_overwrites_Set om key v1 v2 r1 om1 r2 om2 :
  Set_ om key v1 = Some (r1, om1) →
  Set_ om key v2 = Some (r2, om2) →
  Set_ om1 key v2 = Some (v1, true, om2) ∧ r2 = r1.
Proof.
  unfold Set_ at 1 2. intros Hs1 Hs2.
  destruct (pairs om !! key) as [p|] eqn:Hp.
  - destruct (heap om !! p) as [pair|] eqn:Hpair; [|done]. simpl in *.
    injection Hs1 as <- <-. injection Hs2 as <- <-.
    unfold Set_. simpl. rewrite Hp, lookup_insert_eq. simpl.
    by rewrite insert_insert_eq.
  - destruct (LinkedSequence.PushBack (list_ om) (htop om)) as [e l'].
    injection Hs1 as <- <-. injection Hs2 as <- <-.
    unfold Set_. simpl. rewrite !lookup_insert_eq. simpl.
    by rewrite !insert_insert_eq.
Qed.

(** X5: [Len] moves in step with the flags: [Set] adds one exactly when
    it reports that the key was absent, [Delete] takes one away exactly
    when it reports that the key was present, and the length of the list
    follows ([assertLenEqual] of the tests checks both). *)
Theorem Len_follows_flags om key value :
  reachable om →
  (∃ v present om',
     Set_ om key value = Some (v, present, om')
     ∧ Len om' = (if present then Len om else S (Len om))
     ∧ LinkedSequence.Len (list_ om') = Len om')
  ∧ (∃ v present om',
       Delete om key = Some (v, present, om')
       ∧ Len om = (if present then S (Len om') else Len om')
       ∧ LinkedSequence.Len (list_ om') = Len om').
Proof.
  intros Hreach. destruct (reachable_wf _ Hreach) as [ents Hwf]. split.
  - destruct (Set_total _ _ key value Hwf) as ([v present] & om' & Hset).
    exists v, present, om'. split; [done|].
    destruct (Set_cases _ _ _ _ _ _ Hwf Hset)
      as [(a & x & b & -> & _ & [= -> ->] & Hwf')
         |(_ & [= -> ->] & x & _ & _ & _ & Hwf')];
      rewrite (wf_list_Len _ _ Hwf'), (wf_Len _ _ Hwf'), (wf_Len _ _ Hwf),
        !length_app; simpl; split; lia.
  - destruct (Delete_total _ _ key Hwf) as ([v present] & om' & Hdel).
    exists v, present, om'. split; [done|].
    destruct (Delete_cases _ _ _ _ _ Hwf Hdel)
      as [(a & x & b & -> & _ & [= -> ->] & Hwf')|(_ & [= -> ->] & ->)].
    + rewrite (wf_list_Len _ _ Hwf'), (wf_Len _ _ Hwf'), (wf_Len _ _ Hwf),
        !length_app; simpl; split; lia.
    + by rewrite (wf_list_Len _ _ Hwf), (wf_Len _ _ Hwf).
Qed.

(** X6: [Set] never changes the oldest pair of a map that has one, and a
    [Set] that reports the key present does not change the newest pair
    either. *)
Theorem Set_keeps_Oldest om key value v present om' p :
  reachable om →
  Oldest om = Some (Some p) →
  Set_ om key value = Some (v, present, om') →
  Oldest om' = Some (Some p)
  ∧ (present = true → Newest om' = Newest om).
Proof.
  intros Hreach Hold Hset. destruct (reachable_wf _ Hreach) as [ents Hwf].
  rewrite (Oldest_wf _ _ Hwf) in Hold.
  destruct (Set_cases _ _ _ _ _ _ Hwf Hset)
    as [(a & x & b & -> & _ & [= -> ->] & Hwf')
       |(_ & [= -> ->] & x & _ & _ & _ & Hwf')].
  - rewrite (Oldest_wf _ _ Hwf'), (Newest_wf _ _ Hwf'), (Newest_wf _ _ Hwf).
    split.
    + rewrite <- Hold. by destruct a.
    + intros _. rewrite !last_app, !last_cons.
      by destruct (last b).
  - split; [|done]. rewrite (Oldest_wf _ _ Hwf'), <- Hold.
    destruct ents; [done|done].
Qed.

(** X7: [Next] and [Prev] undo each other on the pairs of the index: if
    [Next] of the pair of a key is a pair [q], then [Prev] of [q] is that
    pair, and the other way round. *)
Theorem Next_Prev_inverse om key p :
  reachable om →
  GetPair om key = Some p →
  (∀ q, Next om p = Some (Some q) → Prev om q = Some (Some p))
  ∧ (∀ q, Prev om p = Some (Some q) → Next om q = Some (Some p)).
Proof.
  intros Hreach Hp. destruct (reachable_wf _ Hreach) as [ents Hwf].
  destruct (wf_find _ _ _ _ Hwf Hp) as (a & x & b & -> & _ & <- & _).
  split; intros q Hq.
  - rewrite (Next_wf _ _ _ _ Hwf) in Hq.
    destruct b as [|y b]; [done|]. injection Hq as <-.
    assert (wf om ((a ++ [x]) ++ y :: b)) as Hwf'
      by (by rewrite <- app_assoc).
    rewrite (Prev_wf _ _ _ _ Hwf'). by rewrite last_snoc.
  - rewrite (Prev_wf _ _ _ _ Hwf) in Hq.
    destruct (last a) as [y|] eqn:Hl; [|done]. injection Hq as <-.
    apply last_Some in Hl as [a' ->].
    rewrite <- app_assoc in Hwf. simpl in Hwf.
    by rewrite (Next_wf _ _ _ _ Hwf).
Qed.

(** X8: the ends of the traversal: [Prev] of the oldest pair is [nil] and
    [Next] of the newest pair is [nil], so both loops of the package
    documentation stop there. *)
Theorem traversal_ends om :
  reachable om →
  (∀ p, Oldest om = Some (Some p) → Prev om p = Some None)
  ∧ (∀ p, Newest om = Some (Some p) → Next om p = Some None).
Proof.
  intros Hreach. destruct (reachable_wf _ Hreach) as [ents Hwf].
  split; intros p Hp.
  - rewrite (Oldest_wf _ _ Hwf) in Hp.
    destruct ents as [|x b]; [done|]. injection Hp as <-.
    by rewrite (Prev_wf om [] x b Hwf).
  - rewrite (Newest_wf _ _ Hwf) in Hp.
    destruct (last ents) as [x|] eqn:Hl; [|done]. injection Hp as <-.
    apply last_Some in Hl as [a ->].
    by rewrite (Next_wf om a x [] Hwf).
Qed.

(** X9: [Oldest] is [nil] exactly when [Len] is 0, and so is [Newest];
    on a map with one pair they are the same pair. *)
Theorem Oldest_Newest_nil_iff_empty om :
  reachable om →
  (Oldest om = Some None ↔ Len om = 0)
  ∧ (Newest om = Some None ↔ Len om = 0)
  ∧ (Len om = 1 → Oldest om = Newest om).
Proof.
  intros Hreach. destruct (reachable_wf _ Hreach) as [ents Hwf].
  rewrite (Oldest_wf _ _ Hwf), (Newest_wf _ _ Hwf), (wf_Len _ _ Hwf).
  split_and!.
  - destruct ents; simpl; split; (done || lia).
  - destruct (last ents) as [x|] eqn:Hl.
    + apply last_Some in Hl as [a ->]. rewrite length_app. simpl.
      split; [done|lia].
    + apply last_None in Hl as ->. done.
  - destruct ents as [|x [|y ents]]; simpl; (done || lia).
Qed.

(** X10: [GetPair] and [Get] agree: the pair that [GetPair] returns holds
    the key asked for and the value that [Get] reports with [true], and
    [GetPair] is [nil] exactly when [Get] reports [false]. *)
Theorem GetPair_agrees_with_Get om key :
  reachable om →
  match GetPair om key with
  | Some p => ∃ pair, heap om !! p = Some pair ∧ Key pair = key
                      ∧ Get om key = Some (Value pair, true)
  | None => Get om key = Some (zero_value, false)
  end.
Proof.
  intros Hreach. destruct (reachable_wf _ Hreach) as [ents Hwf].
  destruct (GetPair om key) as [p|] eqn:Hp; [|by apply Get_absent].
  destruct (wf_find _ _ _ _ Hwf Hp) as (a & x & b & -> & <- & <- & _).
  eexists. split_and!.
  - apply (wf_heap_mid _ _ _ _ Hwf).
  - done.
  - apply (Get_present_wf _ _ _ _ Hwf).
Qed.

(** X11: two keys never share a [Pair]: if [GetPair] returns the same
    pair for two keys, the keys are equal. *)
Theorem GetPair_injective om key key' p :
  reachable om →
  GetPair om key = Some p → GetPair om key' = Some p → key = key'.
Proof.
  intros Hreach Hp Hp'. destruct (reachable_wf _ Hreach) as [ents Hwf].
  destruct (wf_find _ _ _ _ Hwf Hp) as (a & x & b & Hents & <- & Hx & _).
  destruct (wf_find _ _ _ _ Hwf Hp') as (a' & y & b' & Hents' & <- & Hy & _).
  apply (wf_ptr_key om ents); [done| | |congruence].
  - rewrite Hents. apply elem_of_app. right. apply list_elem_of_here.
  - rewrite Hents'. apply elem_of_app. right. apply list_elem_of_here.
Qed.

(** X12: the forward traversal visits exactly the associations that
    [Get] reports: [(k, v)] is visited if and only if [Get k] returns [v]
    with [true]. *)
Theorem forward_visits_what_Get_finds om fuel kvs :
  reachable om →
  forward fuel om = Some kvs →
  ∀ k v, (k, v) ∈ kvs ↔ Get om k = Some (v, true).
Proof.
  intros Hreach Hfwd k v. destruct (reachable_wf _ Hreach) as [ents Hwf].
  apply (forward_inv _ _ _ _ Hwf) in Hfwd as ->.
  rewrite (Get_wf _ _ _ Hwf).
  rewrite (elem_of_list_to_map (M:=gmap K)).
  - destruct (list_to_map (contents ents) !! k) as [w|]; [|done].
    split; by intros [= ->].
  - rewrite contents_keys. by destruct Hwf as (_ & ? & _).
Qed.

(** X13: [GetPair] splits the traversal at a key that is present: walking
    [Prev] from it gives the pairs up to it, newest first, walking [Next]
    from it gives the pairs from it on, and the two together are the
    whole traversal from [Oldest]. *)
Theorem GetPair_splits_traversal om key v fuel kvs :
  reachable om →
  forward fuel om = Some kvs →
  Get om key = Some (v, true) →
  (∀ fuel', length kvs ≤ fuel' →
     backward_from fuel' om key = Some (reverse (upto key kvs))
     ∧ forward_from fuel' om key = Some (skip_to key kvs))
  ∧ upto key kvs ++ tail (skip_to key kvs) = kvs
  ∧ last (upto key kvs) = Some (key, v).
Proof.
  intros Hreach Hfwd Hget. destruct (reachable_wf _ Hreach) as [ents Hwf].
  apply (forward_inv _ _ _ _ Hwf) in Hfwd as ->.
  destruct (Get_true_inv _ _ _ Hget) as [p Hp].
  destruct (wf_find _ _ _ _ Hwf Hp) as (a & x & b & -> & <- & _ & Ha & Hb).
  rewrite (Get_present_wf _ _ _ _ Hwf) in Hget. injection Hget as <-.
  rewrite contents_app. simpl.
  rewrite upto_mid, skip_to_mid by (by rewrite contents_keys).
  split_and!.
  - intros fuel' Hfuel.
    rewrite length_app, length_cons, !length_contents in Hfuel.
    rewrite (backward_from_wf _ _ _ _ _ Hwf), (forward_from_wf _ _ _ _ _ Hwf).
    + by rewrite contents_app.
    + simpl. lia.
    + rewrite length_app. simpl. lia.
  - by rewrite <- app_assoc.
  - apply last_snoc.
Qed.

(** X14: setting a key that is absent and deleting it again is a round
    trip for everything a client can observe: the index is the one before,
    [Get] answers as before for every key, and the traversal and [Len]
    are those before. *)
Theorem Set_then_Delete_round_trip om key value fuel kvs :
  reachable om →
  Get om key = Some (zero_value, false) →
  forward fuel om = Some kvs →
  ∃ om1 om2,
    Set_ om key value = Some (zero_value, false, om1)
    ∧ Delete om1 key = Some (value, true, om2)
    ∧ pairs om2 = pairs om
    ∧ (∀ k, Get om2 k = Get om k)
    ∧ Len om2 = Len om
    ∧ (∀ fuel', Len om ≤ fuel' →
         forward fuel' om2 = Some kvs ∧ backward fuel' om2 = Some (reverse kvs)).
Proof.
  intros Hreach Hget Hfwd. destruct (reachable_wf _ Hreach) as [ents Hwf].
  apply (forward_inv _ _ _ _ Hwf) in Hfwd as ->.
  apply Get_false_inv in Hget as [Hnone _].
  destruct (Set_absent_wf _ _ _ value Hwf Hnone)
    as (om1 & x & Hset & <- & <- & Hwf1).
  destruct (Delete_present_wf _ _ _ _ Hwf1) as (om2 & Hdel & Hwf2).
  rewrite app_nil_r in Hwf2.
  exists om1, om2. split_and!; try done.
  - destruct Hwf as (_ & _ & -> & _). by destruct Hwf2 as (_ & _ & -> & _).
  - intros k. by rewrite (Get_wf _ _ _ Hwf2), (Get_wf _ _ _ Hwf).
  - by rewrite (wf_Len _ _ Hwf2), (wf_Len _ _ Hwf).
  - intros fuel' Hfuel. rewrite (wf_Len _ _ Hwf) in Hfuel.
    by rewrite (forward_wf _ _ _ Hwf2), (backward_wf _ _ _ Hwf2).
Qed.

(** X15: insertion order.  Setting pairwise distinct keys one after the
    other on a new map gives a map whose forward traversal is the list of
    pairs in the order they were set, and whose backward traversal is its
    reverse (the property [TestShuffle] checks on random keys). *)
Theorem Set_keeps_insertion_order kvs :
  NoDup kvs.*1 →
  ∃ om,
    run (sets kvs) New = Some om
    ∧ Len om = length kvs
    ∧ (∀ fuel, length kvs ≤ fuel →
         forward fuel om = Some kvs ∧ backward fuel om = Some (reverse kvs)).
Proof.
  intros Hnd.
  assert (∀ om ents, wf om ents → NoDup (kvs.*1) →
            (∀ k, k ∈ kvs.*1 → k ∉ (e_key <$> ents)) →
            ∃ om' ents', run (sets kvs) om = Some om' ∧ wf om' ents'
                         ∧ contents ents' = contents ents ++ kvs) as Hgen.
  { clear Hnd. induction kvs as [|[k v] kvs IH]; intros om ents Hwf Hnd Hdisj.
    - exists om, ents. split_and!; [done|done|by rewrite app_nil_r].
    - csimpl in Hnd. apply NoDup_cons in Hnd as [Hk Hnd].
      assert (pairs om !! k = None) as Hnone.
      { apply (wf_absent _ _ _ Hwf), Hdisj. csimpl. apply list_elem_of_here. }
      destruct (Set_absent_wf _ _ _ v Hwf Hnone)
        as (om1 & x & Hset & Hkx & Hvx & Hwf1).
      destruct (IH om1 (ents ++ [x]) Hwf1 Hnd) as (om' & ents' & Hrun & Hwf' & Hc).
      { intros k' Hk'. rewrite fmap_app. simpl.
        intros [Hin|Hin]%elem_of_app.
        - apply (Hdisj k'); [|done]. csimpl. by apply list_elem_of_further.
        - apply list_elem_of_singleton in Hin. congruence. }
      exists om', ents'. split_and!; [|done|].
      + simpl. rewrite Hset. done.
      + rewrite Hc, contents_app. simpl. rewrite Hkx, Hvx.
        by rewrite <- app_assoc. }
  destruct (Hgen New [] wf_New Hnd) as (om & ents & Hrun & Hwf & Hc).
  { intros k _ Hin. by apply elem_of_nil in Hin. }
  simpl in Hc. subst kvs. exists om. split_and!; [done| |].
  - by rewrite (wf_Len _ _ Hwf), length_contents.
  - intros fuel Hfuel. rewrite length_contents in Hfuel.
    by rewrite (forward_wf _ _ _ Hwf), (backward_wf _ _ _ Hwf).
Qed.

(** X16: pointers into the map are stable.  A [*Pair] obtained from
    [GetPair] stays the pair of its key, with the same contents, through
    any sequence of [Set] and [Delete] calls on other keys. *)
Theorem pair_pointer_stable om key p pair (ops : list (Op K V)) :
  reachable om →
  GetPair om key = Some p →
  heap om !! p = Some pair →
  Forall (λ op, op_key op ≠ key) ops →
  ∃ om', run ops om = Some om'
         ∧ GetPair om' key = Some p
         ∧ heap om' !! p = Some pair.
Proof.
  intros Hreach Hp Hpair Hops.
  destruct (reachable_wf _ Hreach) as [ents Hwf]. clear Hreach.
  revert om ents Hwf Hp Hpair.
  induction Hops as [|op ops Hop Hops IH]; intros om ents Hwf Hp Hpair.
  - by exists om.
  - destruct (exec_keeps_pair _ _ op _ _ Hwf Hp Hop)
      as (om1 & ents1 & Hex & Hwf1 & Hp1 & Hheap1).
    rewrite Hpair in Hheap1.
    destruct (IH om1 ents1 Hwf1 Hp1 Hheap1) as (om' & Hrun & Hp' & Hpair').
    exists om'. simpl. rewrite Hex. by split_and!.
Qed.

(** X17: deleting a key and setting it again allocates a new [Pair]: the
    index then points to an object different from the one it pointed to
    before, and the old object still holds what it held. *)
Theorem reinsertion_allocates_new_pair om key value p pair r1 om1 r2 om2 :
  reachable om →
  GetPair om key = Some p →
  heap om !! p = Some pair →
  Delete om key = Some (r1, om1) →
  Set_ om1 key value = Some (r2, om2) →
  ∃ q, GetPair om2 key = Some q ∧ q ≠ p ∧ heap om2 !! p = Some pair.
Proof.
  intros Hreach Hp Hpair Hdel Hset.
  destruct (reachable_wf _ Hreach) as [ents Hwf].
  destruct (wf_live _ _ _ _ Hwf Hp) as [_ Hlt].
  destruct (Delete_shape _ _ _ _ Hdel) as (Hheap1 & Htop1 & Hpairs1).
  assert (pairs om1 !! key = None) as Hnone.
  { rewrite Hpairs1. apply lookup_delete_eq. }
  destruct (Set_absent_shape _ _ _ _ _ Hnone Hset) as (Hpairs2 & _ & Hfr).
  exists (htop om1). split_and!.
  - unfold GetPair. rewrite Hpairs2. apply lookup_insert_eq.
  - rewrite Htop1. lia.
  - rewrite Hfr, Hheap1; [done|]. rewrite Htop1. lia.
Qed.

(** X18: deleting one key does not break a traversal resumed at another:
    after [Delete(key)], walking [Next] from [GetPair(key')] visits what
    it visited before, without the pair of [key]. *)
Theorem resume_after_Delete_of_other_key om key key' v fuel kvs r om' :
  reachable om →
  forward fuel om = Some kvs →
  key ≠ key' →
  Get om key' = Some (v, true) →
  Delete om key = Some (r, om') →
  ∀ fuel', length kvs ≤ fuel' →
    forward_from fuel' om' key' = Some (without key (skip_to key' kvs)).
Proof.
  intros Hreach Hfwd Hne Hget Hdel fuel' Hfuel.
  destruct (reachable_wf _ Hreach) as [ents Hwf].
  apply (forward_inv _ _ _ _ Hwf) in Hfwd as ->.
  rewrite length_contents in Hfuel.
  destruct (Get_true_inv _ _ _ Hget) as [p' Hp'].
  rewrite <- (Delete_pairs_frame _ _ _ _ _ Hdel Hne) in Hp'.
  rewrite <- skip_to_without by done.
  destruct (Delete_cases _ _ _ _ _ Hwf Hdel)
    as [(a & x & b & -> & <- & _ & Hwf')|(Hnone & _ & ->)].
  - destruct (wf_keys_split _ _ _ _ Hwf) as [Ha Hb].
    rewrite contents_app. simpl.
    rewrite without_mid by (by rewrite contents_keys).
    rewrite <- contents_app. apply forward_from_skip; [done|eauto|].
    rewrite length_app in *. simpl in Hfuel. lia.
  - rewrite without_fresh.
    + apply forward_from_skip; [done|eauto|done].
    + rewrite contents_keys. by apply (wf_absent _ _ _ Hwf).
Qed.

(** X19: deleting from the ends.  After [Delete] of a present key,
    [Oldest] is the old [Next] of the deleted pair if that pair was the
    oldest, and is unchanged otherwise; likewise [Newest] is its old
    [Prev] if it was the newest, and is unchanged otherwise. *)
Theorem Delete_moves_the_ends om key p r om' :
  reachable om →
  GetPair om key = Some p →
  Delete om key = Some (r, om') →
  Oldest om' = (if decide (Oldest om = Some (Some p))
                then Next om p else Oldest om)
  ∧ Newest om' = (if decide (Newest om = Some (Some p))
                  then Prev om p else Newest om).
Proof.
  intros Hreach Hp Hdel. destruct (reachable_wf _ Hreach) as [ents Hwf].
  destruct (Delete_cases _ _ _ _ _ Hwf Hdel)
    as [(a & x & b & -> & <- & _ & Hwf')|(Hnone & _)];
    [|unfold GetPair in Hp; congruence].
  assert (e_ptr x = p) as <-.
  { unfold GetPair in Hp. rewrite (wf_index _ _ x Hwf) in Hp; [congruence|].
    apply elem_of_app. right. apply list_elem_of_here. }
  assert (∀ y, y ∈ a ++ b → e_ptr y ≠ e_ptr x) as Hdiff.
  { intros y Hy Heq. destruct (wf_keys_split _ _ _ _ Hwf) as [Ha Hb].
    assert (e_key y = e_key x) as Hk.
    { apply (wf_ptr_key om (a ++ x :: b)); [done| |  |done].
      - apply elem_of_app in Hy as [?|?]; apply elem_of_app; [by left|right].
        by apply list_elem_of_further.
      - apply elem_of_app. right. apply list_elem_of_here. }
    apply elem_of_app in Hy as [Hy|Hy]; [apply Ha|apply Hb];
      rewrite <- Hk; apply list_elem_of_fmap; eauto. }
  rewrite (Oldest_wf _ _ Hwf'), (Newest_wf _ _ Hwf').
  rewrite (Oldest_wf _ _ Hwf), (Newest_wf _ _ Hwf).
  rewrite (Next_wf _ _ _ _ Hwf), (Prev_wf _ _ _ _ Hwf). split.
  - destruct a as [|y a]; simpl.
    + by rewrite decide_True.
    + rewrite decide_False; [done|]. intros [= Heq].
      apply (Hdiff y); [|done]. apply list_elem_of_here.
  - rewrite !last_app, last_cons.
    destruct (last b) as [y|] eqn:Hl; simpl.
    + rewrite decide_False; [done|]. intros [= Heq].
      apply (Hdiff y); [|done]. apply elem_of_app. right.
      apply last_Some in Hl as [b' ->]. apply elem_of_app. right.
      apply list_elem_of_here.
    + by rewrite decide_True.
Qed.
End extras.

(** * The further properties on the maps of the package tests *)

Section extras_scenario.
Import Scenario.
Local Open Scope string_scope.

Lemma Set_returns_prior_Get_witness :
  reachable om4
  ∧ ∃ om', Get om4 "yin" = Some ("yang", true)
           ∧ Set_ om4 "yin" "bla" = Some ("yang", true, om').
Proof.
  assert (reachable om4) as Hreach by (by exists ops4).
  split; [done|].
  destruct (Set_returns_prior_Get om4 "yin" "bla" Hreach)
    as (r & om' & Hget & Hset).
  assert (Get om4 "yin" = Some ("yang", true)) as Hget' by done.
  rewrite Hget' in Hget. injection Hget as <-. by exists om'.
Defined.

Lemma Delete_returns_prior_Get_witness :
  reachable om4
  ∧ ∃ om', Get om4 "nope" = Some ("", false)
           ∧ Delete om4 "nope" = Some ("", false, om').
Proof.
  assert (reachable om4) as Hreach by (by exists ops4).
  split; [done|].
  destruct (Delete_returns_prior_Get om4 "nope" Hreach)
    as (r & om' & Hget & Hdel).
  assert (Get om4 "nope" = Some ("", false)) as Hget' by done.
  rewrite Hget' in Hget. injection Hget as <-. by exists om'.
Defined.

Lemma Get_after_Set_and_Delete_witness :
  reachable om4
  ∧ ∃ r om', Set_ om4 "new" "val" = Some (r, om')
             ∧ Get om' "new" = Some ("val", true).
Proof.
  assert (reachable om4) as Hreach by (by exists ops4).
  split; [done|].
  destruct (Get_after_Set_and_Delete om4 "new" "val" Hreach)
    as [(r & om' & _ & _ & Hset & Hget & _) _].
  by exists r, om'.
Defined.

Lemma Set_overwrites_Set_witness :
  ∃ r1 om1 r2 om2,
    Set_ om4 "yin" "a" = Some (r1, om1)
    ∧ Set_ om4 "yin" "b" = Some (r2, om2)
    ∧ Set_ om1 "yin" "b" = Some ("a", true, om2).
Proof.
  destruct (Set_ om4 "yin" "a") as [[r1 om1]|] eqn:Hs1;
    [|by vm_compute in Hs1].
  destruct (Set_ om4 "yin" "b") as [[r2 om2]|] eqn:Hs2;
    [|by vm_compute in Hs2].
  exists r1, om1, r2, om2. split_and!; [done|done|].
  by destruct (Set_overwrites_Set om4 "yin" "a" "b" r1 om1 r2 om2 Hs1 Hs2).
Defined.

Lemma Len_follows_flags_witness :
  reachable om4
  ∧ ∃ v present om', Set_ om4 "new" "val" = Some (v, present, om')
                     ∧ Len om' = (if present then 4 else 5).
Proof.
  assert (reachable om4) as Hreach by (by exists ops4).
  split; [done|].
  destruct (Len_follows_flags om4 "new" "val" Hreach)
    as [(v & present & om' & Hset & Hlen & _) _].
  by exists v, present, om'.
Defined.

Lemma Set_keeps_Oldest_witness :
  reachable om4
  ∧ Oldest om4 = Some (Some 1%positive)
  ∧ ∃ v present om', Set_ om4 "new" "val" = Some (v, present, om')
                     ∧ Oldest om' = Some (Some 1%positive).
Proof.
  assert (reachable om4) as Hreach by (by exists ops4).
  split_and!; [done|done|].
  destruct (Set_ om4 "new" "val") as [[[v present] om']|] eqn:Hset;
    [|by vm_compute in Hset].
  exists v, present, om'. split; [done|].
  by destruct (Set_keeps_Oldest om4 "new" "val" v present om' 1%positive
                 Hreach eq_refl Hset).
Defined.

Lemma Next_Prev_inverse_witness :
  reachable om4
  ∧ GetPair om4 "bip" = Some 2%positive
  ∧ Next om4 2%positive = Some (Some 3%positive)
  ∧ Prev om4 3%positive = Some (Some 2%positive).
Proof.
  assert (reachable om4) as Hreach by (by exists ops4).
  split_and!; [done|done|done|].
  destruct (Next_Prev_inverse om4 "bip" 2%positive Hreach eq_refl) as [Hn _].
  by apply Hn.
Defined.

Lemma traversal_ends_witness :
  reachable om4
  ∧ Oldest om4 = Some (Some 1%positive)
  ∧ Prev om4 1%positive = Some None.
Proof.
  assert (reachable om4) as Hreach by (by exists ops4).
  split_and!; [done|done|].
  destruct (traversal_ends om4 Hreach) as [Ho _]. by apply Ho.
Defined.

Lemma Oldest_Newest_nil_iff_empty_witness :
  reachable (New (K:=string) (V:=string))
  ∧ (Oldest (New (K:=string) (V:=string)) = Some None ↔
     Len (New (K:=string) (V:=string)) = 0).
Proof.
  assert (reachable (New (K:=string) (V:=string))) as Hreach by (by exists []).
  split; [done|].
  by destruct (Oldest_Newest_nil_iff_empty New Hreach) as (? & _).
Defined.

Lemma GetPair_agrees_with_Get_witness :
  reachable om4
  ∧ match GetPair om4 "yin" with
    | Some p => ∃ pair, heap om4 !! p = Some pair ∧ Key pair = "yin"
                        ∧ Get om4 "yin" = Some (Value pair, true)
    | None => Get om4 "yin" = Some ("", false)
    end.
Proof.
  assert (reachable om4) as Hreach by (by exists ops4).
  split; [done|]. apply (GetPair_agrees_with_Get om4 "yin" Hreach).
Defined.

Lemma GetPair_injective_witness :
  reachable om4 ∧ GetPair om4 "yin" = Some 3%positive ∧ "yin" = "yin".
Proof.
  assert (reachable om4) as Hreach by (by exists ops4).
  split_and!; [done|done|].
  apply (GetPair_injective om4 "yin" "yin" 3%positive Hreach eq_refl eq_refl).
Defined.

Lemma forward_visits_what_Get_finds_witness :
  reachable om4
  ∧ forward 4 om4 = Some kvs4
  ∧ (("yin", "yang") ∈ kvs4 ↔ Get om4 "yin" = Some ("yang", true)).
Proof.
  assert (reachable om4) as Hreach by (by exists ops4).
  split_and!; [done|done|].
  apply (forward_visits_what_Get_finds om4 4 kvs4 Hreach eq_refl).
Defined.

Lemma GetPair_splits_traversal_witness :
  reachable om4
  ∧ forward 4 om4 = Some kvs4
  ∧ Get om4 "yin" = Some ("yang", true)
  ∧ backward_from 4 om4 "yin"
    = Some [("yin", "yang"); ("bip", "bop"); ("foo", "bar")]
  ∧ forward_from 4 om4 "yin" = Some [("yin", "yang"); ("bar", "baz")].
Proof.
  assert (reachable om4) as Hreach by (by exists ops4).
  destruct (GetPair_splits_traversal om4 "yin" "yang" 4 kvs4
              Hreach eq_refl eq_refl) as (Hboth & _).
  destruct (Hboth 4) as [Hb Hf]; [simpl; lia|].
  split_and!; [done|done|done|exact Hb|exact Hf].
Defined.

Lemma Set_then_Delete_round_trip_witness :
  reachable om4
  ∧ Get om4 "new" = Some ("", false)
  ∧ forward 4 om4 = Some kvs4
  ∧ ∃ om1 om2, Set_ om4 "new" "val" = Some ("", false, om1)
               ∧ Delete om1 "new" = Some ("val", true, om2)
               ∧ forward 4 om2 = Some kvs4.
Proof.
  assert (reachable om4) as Hreach by (by exists ops4).
  split_and!; [done|done|done|].
  destruct (Set_then_Delete_round_trip om4 "new" "val" 4 kvs4
              Hreach eq_refl eq_refl)
    as (om1 & om2 & Hset & Hdel & _ & _ & _ & Hfwd).
  exists om1, om2. split_and!; [done|done|].
  apply Hfwd. vm_compute. lia.
Defined.

Lemma Set_keeps_insertion_order_witness :
  NoDup kvs4.*1
  ∧ ∃ om, run (sets kvs4) New = Some om ∧ forward 4 om = Some kvs4.
Proof.
  assert (NoDup kvs4.*1) as Hnd by compute_done.
  split; [done|].
  destruct (Set_keeps_insertion_order kvs4 Hnd) as (om & Hrun & _ & Hfwd).
  exists om. split; [done|]. apply Hfwd. simpl. lia.
Defined.

Lemma pair_pointer_stable_witness :
  reachable om4
  ∧ GetPair om4 "yin" = Some 3%positive
  ∧ ∃ om', run [OpDelete "foo"; OpSet "bar" "x"; OpSet "zzz" "y"] om4 = Some om'
           ∧ GetPair om' "yin" = Some 3%positive
           ∧ heap om' !! 3%positive
             = Some {| Key := "yin"; Value := "yang";
                       element := Some 3%positive |}.
Proof.
  assert (reachable om4) as Hreach by (by exists ops4).
  split_and!; [done|done|].
  apply (pair_pointer_stable om4 "yin" 3%positive _ _ Hreach eq_refl eq_refl).
  repeat constructor; done.
Defined.

Lemma reinsertion_allocates_new_pair_witness :
  reachable om4
  ∧ GetPair om4 "yin" = Some 3%positive
  ∧ ∃ r1 om1 r2 om2 q,
      Delete om4 "yin" = Some (r1, om1)
      ∧ Set_ om1 "yin" "again" = Some (r2, om2)
      ∧ GetPair om2 "yin" = Some q ∧ q ≠ 3%positive.
Proof.
  assert (reachable om4) as Hreach by (by exists ops4).
  split_and!; [done|done|].
  destruct (Delete om4 "yin") as [[r1 om1]|] eqn:Hdel;
    [|by vm_compute in Hdel].
  destruct (Set_ om1 "yin" "again") as [[r2 om2]|] eqn:Hset.
  - destruct (reinsertion_allocates_new_pair om4 "yin" "again" 3%positive _
                r1 om1 r2 om2 Hreach eq_refl eq_refl Hdel Hset)
      as (q & Hq & Hne & _).
    by exists r1, om1, r2, om2, q.
  - vm_compute in Hdel. injection Hdel as <- <-. by vm_compute in Hset.
Defined.

Lemma resume_after_Delete_of_other_key_witness :
  reachable om4
  ∧ forward 4 om4 = Some kvs4
  ∧ "yin" ≠ "bip"
  ∧ Get om4 "bip" = Some ("bop", true)
  ∧ ∃ r om', Delete om4 "yin" = Some (r, om')
             ∧ forward_from 4 om' "bip" = Some [("bip", "bop"); ("bar", "baz")].
Proof.
  assert (reachable om4) as Hreach by (by exists ops4).
  split_and!; [done|done|done|done|].
  destruct (Delete om4 "yin") as [[r om']|] eqn:Hdel;
    [|by vm_compute in Hdel].
  exists r, om'. split; [done|].
  by apply (resume_after_Delete_of_other_key om4 "yin" "bip" "bop" 4 kvs4 r om'
              Hreach eq_refl).
Defined.

Lemma Delete_moves_the_ends_witness :
  reachable om4
  ∧ GetPair om4 "foo" = Some 1%positive
  ∧ ∃ r om', Delete om4 "foo" = Some (r, om')
             ∧ Oldest om' = Some (Some 2%positive)
             ∧ Newest om' = Some (Some 4%positive).
Proof.
  assert (reachable om4) as Hreach by (by exists ops4).
  split_and!; [done|done|].
  destruct (Delete om4 "foo") as [[r om']|] eqn:Hdel;
    [|by vm_compute in Hdel].
  exists r, om'. split; [done|].
  by destruct (Delete_moves_the_ends om4 "foo" 1%positive r om'
                 Hreach eq_refl Hdel) as [-> ->].
Defined.
End extras_scenario.
